(** * Patch Manager: a shallow embedding of [scripts/patch_manager.py]

    The development follows the Python module top to bottom: the string and
    list primitives the module relies on, the file-system view, the five
    line-editing methods, the [difflib] unified diff, the type-check adapter,
    the task-schema validator, the notifier and the batch driver.  The
    theorems at the end settle the behavioural claims made about the module.

    Conventions of the embedding.
    - Text is a [string] of characters with codes below 256.
    - Python integers are [Z]; list indices obtained after a bounds check
      are converted to [nat].
    - A Python exception is a value of type [exn]; a computation that may
      raise returns [exn + A] ([inl] raises, [inr] returns).
    - The file tree is a finite map from path to file text.  Paths are
      built as [pathlib] builds them; the keys of the tree are the paths of
      its regular files, as [pathlib] prints them, and distinct keys are
      distinct files (no symbolic links, no [..] resolved by the operating
      system).  Permissions and directories are not modelled: a file of
      the tree can be read and written.
    - External processes and libraries whose behaviour depends on the
      machine (the [npx tsc] subprocess, [json.load], the HTTP client) are
      fields of the record [Host]. *)

From Stdlib Require Import Ascii String DecimalString.
From stdpp Require Import base numbers strings list gmap.

Local Open Scope string_scope.
Local Open Scope list_scope.
Local Open Scope Z_scope.

(** ** Characters and Python string primitives *)

Definition LF : ascii := ascii_of_nat 10.
Definition CR : ascii := ascii_of_nat 13.
Definition nl : string := String LF EmptyString.

(** [str.isspace] on one character (code points below 256). *)
Definition isspace (c : ascii) : bool :=
  let n := nat_of_ascii c in
  ((9 <=? n) && (n <=? 13) || (28 <=? n) && (n <=? 32)
   || (n =? 133) || (n =? 160))%nat.

(** [s.lstrip()] *)
Fixpoint lstrip (s : string) : string :=
  match s with
  | EmptyString => EmptyString
  | String c r => if isspace c then lstrip r else s
  end.

(** [s.rstrip()] *)
Fixpoint rstrip (s : string) : string :=
  match s with
  | EmptyString => EmptyString
  | String c r =>
      match rstrip r with
      | EmptyString => if isspace c then EmptyString else String c EmptyString
      | r' => String c r'
      end
  end.

(** [s.strip()] *)
Definition strip (s : string) : string := rstrip (lstrip s).

(** Truthiness of a Python string: non-empty. *)
Definition truthy (s : string) : bool :=
  match s with EmptyString => false | _ => true end.

(** Truthiness of an optional string field ([None] and the empty string are
    both falsy). *)
Definition truthy_opt (o : option string) : bool :=
  match o with Some s => truthy s | None => false end.

(** [s.split(sep)] for a one-character separator *)
Fixpoint split_char (sep : ascii) (s : string) : list string :=
  match s with
  | EmptyString => [EmptyString]
  | String c r =>
      if Ascii.eqb c sep then EmptyString :: split_char sep r
      else match split_char sep r with
           | h :: t => String c h :: t
           | [] => [String c EmptyString]
           end
  end.

(** [s.split('\n')] *)
Definition split_nl (s : string) : list string := split_char LF s.

(** [s.rfind(c)], [None] standing for [-1] *)
Fixpoint rfind (c : ascii) (s : string) : option nat :=
  match s with
  | EmptyString => None
  | String x r =>
      match rfind c r with
      | Some i => Some (S i)
      | None => if Ascii.eqb x c then Some 0%nat else None
      end
  end.

(** [s.count(c)] for a one-character [c] *)
Fixpoint count_char (c : ascii) (s : string) : nat :=
  match s with
  | EmptyString => 0
  | String x r => ((if Ascii.eqb x c then 1 else 0) + count_char c r)%nat
  end.

(** [sep.join(l)] *)
Fixpoint join (sep : string) (l : list string) : string :=
  match l with
  | [] => EmptyString
  | [x] => x
  | x :: t => x +:+ sep +:+ join sep t
  end.

(** [s.endswith('\n')] *)
Fixpoint endswith_nl (s : string) : bool :=
  match s with
  | EmptyString => false
  | String c EmptyString => Ascii.eqb c LF
  | String _ r => endswith_nl r
  end.

(** [s[:n]] for [0 <= n] *)
Definition prefix (n : nat) (s : string) : string := substring 0 n s.

(** [str(z)] for a Python integer. *)
Definition str_Z (z : Z) : string := NilZero.string_of_int (Z.to_int z).

(** [repr(s)] for a string: the text is put between single quotes, or
    between double quotes when it holds a single quote and no double quote;
    the quote in use and the backslash are escaped, tab, newline and
    carriage return are written [\t], [\n] and [\r], and every other
    character that is not printable is written [\xhh]. *)
Definition SQ : ascii := ascii_of_nat 39.
Definition DQ : ascii := ascii_of_nat 34.
Definition BACKSLASH : ascii := ascii_of_nat 92.

(** [c.isprintable()] (code points below 256). *)
Definition isprintable (c : ascii) : bool :=
  let n := nat_of_ascii c in
  ((32 <=? n) && (n <=? 126) || (161 <=? n) && negb (n =? 173))%nat.

Definition hex_digit (n : nat) : ascii :=
  default "0"%char (get n "0123456789abcdef").

Definition repr_char (quote : ascii) (c : ascii) : string :=
  let n := nat_of_ascii c in
  if Ascii.eqb c quote || Ascii.eqb c BACKSLASH then
    String BACKSLASH (String c EmptyString)
  else if (n =? 9)%nat then String BACKSLASH "t"
  else if (n =? 10)%nat then String BACKSLASH "n"
  else if (n =? 13)%nat then String BACKSLASH "r"
  else if isprintable c then String c EmptyString
  else
    String BACKSLASH
      (String "x"
         (String (hex_digit (n / 16))
            (String (hex_digit (n mod 16)) EmptyString))).

Fixpoint repr_chars (quote : ascii) (s : string) : string :=
  match s with
  | EmptyString => EmptyString
  | String c r => repr_char quote c +:+ repr_chars quote r
  end.

Definition repr_str (s : string) : string :=
  let quote :=
    if (0 <? count_char SQ s)%nat && (count_char DQ s =? 0)%nat then DQ
    else SQ in
  String quote (repr_chars quote s +:+ String quote EmptyString).

(** [repr] of a list of strings, as an f-string prints it. *)
Definition repr_list (l : list string) : string :=
  "[" +:+ join ", " (map repr_str l) +:+ "]".

(** ** Python list slices *)

Definition len {A} (l : list A) : Z := Z.of_nat (length l).

(** Position denoted by a slice bound [i] in a list of length [n]. *)
Definition slice_bound (n : nat) (i : Z) : nat :=
  if i <? 0 then Z.to_nat (Z.max 0 (Z.of_nat n + i)) else Z.to_nat i.

(** [l[:hi]] *)
Definition slice_to {A} (l : list A) (hi : Z) : list A :=
  take (slice_bound (length l) hi) l.

(** [l[lo:]] *)
Definition slice_from {A} (l : list A) (lo : Z) : list A :=
  drop (slice_bound (length l) lo) l.

(** ** Exceptions *)

Inductive exn : Type :=
| FileNotFoundError (msg : string)
| ValueError (msg : string).

(** [str(e)] *)
Definition str_exn (e : exn) : string :=
  match e with FileNotFoundError m | ValueError m => m end.

(** ** Text files *)

(** Universal-newline translation done by [open(..., 'r')]. *)
Fixpoint universal_newlines (s : string) : string :=
  match s with
  | EmptyString => EmptyString
  | String c r =>
      if Ascii.eqb c CR then
        match r with
        | String c2 r2 =>
            if Ascii.eqb c2 LF then String LF (universal_newlines r2)
            else String LF (universal_newlines r)
        | EmptyString => nl
        end
      else String c (universal_newlines r)
  end.

(** Split after every newline, keeping it ([readlines] on translated text). *)
Fixpoint split_keepends (s : string) : list string :=
  match s with
  | EmptyString => []
  | String c r =>
      if Ascii.eqb c LF then nl :: split_keepends r
      else match split_keepends r with
           | [] => [String c EmptyString]
           | h :: t => String c h :: t
           end
  end.

(** [f.read()] and [f.readlines()] of a text-mode file holding [text]. *)
Definition read_text (text : string) : string := universal_newlines text.
Definition readlines (text : string) : list string :=
  split_keepends (universal_newlines text).

(** [f.writelines(lines)] into a file opened with ['w'] (on a host whose
    line separator is the newline character). *)
Definition writelines (lines : list string) : string :=
  fold_right String.append EmptyString lines.

(** ** The exception monad *)

#[global] Instance exn_ret : MRet (sum exn) := λ A a, inr a.
#[global] Instance exn_bind : MBind (sum exn) := λ A B k m,
  match m with inl e => inl e | inr a => k a end.

#[global] Instance exn_fmap : FMap (sum exn) := λ A B f m,
  match m with inl e => inl e | inr a => inr (f a) end.

Definition raise {A} (e : exn) : exn + A := inl e.

(** ** [difflib]: the part of Python's standard library behind
       [difflib.unified_diff]

    [SequenceMatcher(None, a, b)] with the default [autojunk=True]; since
    [isjunk] is [None] the junk set is empty, so the two junk-extension
    loops of [find_longest_match] never run and are left out. *)

Module difflib.

Definition Match : Type := nat * nat * nat.

Inductive tag : Type := replace | delete | insert | equal.

Definition opcode : Type := tag * nat * nat * nat * nat.

Definition is_equal (t : tag) : bool :=
  match t with equal => true | _ => false end.

(** [__chain_b]: positions of every element of [b]; with 200 elements or
    more, the elements occurring more than [n // 100 + 1] times are
    dropped. *)
Definition chain_b (b : list string) : gmap string (list nat) :=
  let b2j :=
    foldl (λ (b2j : gmap string (list nat)) '(i, elt),
             <[elt := default [] (b2j !! elt) ++ [i]]> b2j)
          ∅ (imap pair b) in
  let n := length b in
  if (200 <=? n)%nat then
    let ntest := (n `div` 100 + 1)%nat in
    filter (λ kv, (length kv.2 ≤ ntest)%nat) b2j
  else b2j.

(** The inner [for j in b2j.get(a[i], nothing)] loop. *)
Fixpoint scan_row (j2len : gmap nat nat) (blo bhi i : nat) (js : list nat)
    (newj2len : gmap nat nat) (best : Match) : gmap nat nat * Match :=
  match js with
  | [] => (newj2len, best)
  | j :: js' =>
      if (j <? blo)%nat then scan_row j2len blo bhi i js' newj2len best
      else if (bhi <=? j)%nat then (newj2len, best)
      else
        let k := (match j with
                  | O => 0
                  | S j' => default 0 (j2len !! j')
                  end + 1)%nat in
        let newj2len := <[j := k]> newj2len in
        let best :=
          let '(_, _, bestsize) := best in
          if (bestsize <? k)%nat then (i + 1 - k, j + 1 - k, k)%nat
          else best in
        scan_row j2len blo bhi i js' newj2len best
  end.

(** The outer [for i in range(alo, ahi)] loop. *)
Definition scan (a : list string) (b2j : gmap string (list nat))
    (alo ahi blo bhi : nat) : Match :=
  snd (foldl (λ '(j2len, best) i,
                let js := match a !! i with
                          | Some x => default [] (b2j !! x)
                          | None => []
                          end in
                scan_row j2len blo bhi i js ∅ best)
             (∅, (alo, blo, 0%nat)) (seq alo (ahi - alo))).

(** [while besti > alo and bestj > blo and a[besti-1] == b[bestj-1]] *)
Fixpoint extend_left (a b : list string) (alo blo besti bestj bestsize : nat)
    : Match :=
  match besti, bestj with
  | S i', S j' =>
      if (alo <? besti)%nat && (blo <? bestj)%nat
         && bool_decide (is_Some (a !! i') ∧ a !! i' = b !! j')
      then extend_left a b alo blo i' j' (S bestsize)
      else (besti, bestj, bestsize)
  | _, _ => (besti, bestj, bestsize)
  end.

(** [while besti+bestsize < ahi and bestj+bestsize < bhi and
     a[besti+bestsize] == b[bestj+bestsize]]; the loop runs at most
    [ahi - (besti+bestsize)] times, which is the [fuel] passed in. *)
Fixpoint extend_right (fuel : nat) (a b : list string)
    (ahi bhi besti bestj bestsize : nat) : nat :=
  match fuel with
  | O => bestsize
  | S fuel' =>
      if (besti + bestsize <? ahi)%nat && (bestj + bestsize <? bhi)%nat
         && bool_decide (is_Some (a !! (besti + bestsize)%nat)
                         ∧ a !! (besti + bestsize)%nat
                           = b !! (bestj + bestsize)%nat)
      then extend_right fuel' a b ahi bhi besti bestj (S bestsize)
      else bestsize
  end.

Definition find_longest_match (a b : list string)
    (b2j : gmap string (list nat)) (alo ahi blo bhi : nat) : Match :=
  let '(besti, bestj, bestsize) := scan a b2j alo ahi blo bhi in
  let '(besti, bestj, bestsize) :=
    extend_left a b alo blo besti bestj bestsize in
  let bestsize :=
    extend_right (ahi - (besti + bestsize)) a b ahi bhi besti bestj bestsize in
  (besti, bestj, bestsize).

(** The [while queue] loop of [get_matching_blocks].  The head of the list
    is the top of Python's stack ([queue.pop()] takes the last pushed). *)
Fixpoint blocks_loop (fuel : nat) (a b : list string)
    (b2j : gmap string (list nat)) (queue : list (nat * nat * nat * nat))
    (matching_blocks : list Match) : list Match :=
  match fuel with
  | O => matching_blocks
  | S fuel' =>
      match queue with
      | [] => matching_blocks
      | (alo, ahi, blo, bhi) :: queue =>
          let '(i, j, k) := find_longest_match a b b2j alo ahi blo bhi in
          if (k =? 0)%nat then blocks_loop fuel' a b b2j queue matching_blocks
          else
            let matching_blocks := matching_blocks ++ [(i, j, k)] in
            let queue :=
              if (alo <? i)%nat && (blo <? j)%nat
              then (alo, i, blo, j) :: queue else queue in
            let queue :=
              if (i + k <? ahi)%nat && (j + k <? bhi)%nat
              then ((i + k)%nat, ahi, (j + k)%nat, bhi) :: queue else queue in
            blocks_loop fuel' a b b2j queue matching_blocks
      end
  end.

(** Tuple order used by [matching_blocks.sort()]. *)
Definition Match_leb (x y : Match) : bool :=
  let '(i1, j1, k1) := x in
  let '(i2, j2, k2) := y in
  ((i1 <? i2) || (i1 =? i2) && ((j1 <? j2) || (j1 =? j2) && (k1 <=? k2)))%nat.

Fixpoint insert_sorted (x : Match) (l : list Match) : list Match :=
  match l with
  | [] => [x]
  | y :: l' => if Match_leb x y then x :: l else y :: insert_sorted x l'
  end.

Definition sort (l : list Match) : list Match :=
  foldr insert_sorted [] l.

(** Merging of adjacent blocks. *)
Fixpoint collapse (i1 j1 k1 : nat) (blocks : list Match) : list Match :=
  match blocks with
  | [] => if (k1 =? 0)%nat then [] else [(i1, j1, k1)]
  | (i2, j2, k2) :: rest =>
      if ((i1 + k1 =? i2) && (j1 + k1 =? j2))%nat
      then collapse i1 j1 (k1 + k2) rest
      else (if (k1 =? 0)%nat then [] else [(i1, j1, k1)])
           ++ collapse i2 j2 k2 rest
  end.

Definition get_matching_blocks (a b : list string) : list Match :=
  let la := length a in
  let lb := length b in
  let matching_blocks :=
    blocks_loop (2 * la + 1) a b (chain_b b) [(0, la, 0, lb)%nat] [] in
  collapse 0 0 0 (sort matching_blocks) ++ [(la, lb, 0%nat)].

Fixpoint opcodes_loop (i j : nat) (blocks : list Match) : list opcode :=
  match blocks with
  | [] => []
  | (ai, bj, size) :: rest =>
      (if (i <? ai)%nat && (j <? bj)%nat then [(replace, i, ai, j, bj)]
       else if (i <? ai)%nat then [(delete, i, ai, j, bj)]
       else if (j <? bj)%nat then [(insert, i, ai, j, bj)]
       else [])
      ++ (if (size =? 0)%nat then []
          else [(equal, ai, (ai + size)%nat, bj, (bj + size)%nat)])
      ++ opcodes_loop (ai + size) (bj + size) rest
  end.

Definition get_opcodes (a b : list string) : list opcode :=
  opcodes_loop 0 0 (get_matching_blocks a b).

(** [codes[0] = tag, max(i1, i2-n), i2, max(j1, j2-n), j2] *)
Definition trim_first (n : nat) (codes : list opcode) : list opcode :=
  match codes with
  | (equal, i1, i2, j1, j2) :: rest =>
      (equal, i1 `max` (i2 - n), i2, j1 `max` (j2 - n), j2)%nat :: rest
  | _ => codes
  end.

(** [codes[-1] = tag, i1, min(i2, i1+n), j1, min(j2, j1+n)] *)
Fixpoint trim_last (n : nat) (codes : list opcode) : list opcode :=
  match codes with
  | [] => []
  | [(equal, i1, i2, j1, j2)] =>
      [(equal, i1, i2 `min` (i1 + n), j1, j2 `min` (j1 + n))%nat]
  | c :: rest => c :: trim_last n rest
  end.

Fixpoint group_loop (n : nat) (codes : list opcode) (group : list opcode)
    : list (list opcode) :=
  match codes with
  | [] =>
      match group with
      | [] => []
      | [(equal, _, _, _, _)] => []
      | _ => [group]
      end
  | (tag, i1, i2, j1, j2) :: rest =>
      if is_equal tag && (n + n <? i2 - i1)%nat then
        (group ++ [(tag, i1, i2 `min` (i1 + n), j1, j2 `min` (j1 + n))%nat])
        :: group_loop n rest
             [(tag, i1 `max` (i2 - n), i2, j1 `max` (j2 - n), j2)%nat]
      else group_loop n rest (group ++ [(tag, i1, i2, j1, j2)])
  end.

Definition get_grouped_opcodes (a b : list string) (n : nat)
    : list (list opcode) :=
  let codes := get_opcodes a b in
  let codes := match codes with
               | [] => [(equal, 0, 1, 0, 1)%nat]
               | _ => codes
               end in
  group_loop n (trim_last n (trim_first n codes)) [].

Definition str_nat (n : nat) : string := str_Z (Z.of_nat n).

Definition _format_range_unified (start stop : nat) : string :=
  let beginning := (start + 1)%nat in
  let length := (stop - start)%nat in
  if (length =? 1)%nat then str_nat beginning
  else
    let beginning := if (length =? 0)%nat then (beginning - 1)%nat
                     else beginning in
    str_nat beginning +:+ "," +:+ str_nat length.

(** [l[i1:i2]] for [0 <= i1 <= i2] *)
Definition slice {A} (l : list A) (i1 i2 : nat) : list A :=
  take (i2 - i1) (drop i1 l).

Definition group_lines (a b : list string) (op : opcode) : list string :=
  let '(tag, i1, i2, j1, j2) := op in
  match tag with
  | equal => map (String.append " ") (slice a i1 i2)
  | replace => map (String.append "-") (slice a i1 i2)
               ++ map (String.append "+") (slice b j1 j2)
  | delete => map (String.append "-") (slice a i1 i2)
  | insert => map (String.append "+") (slice b j1 j2)
  end.

Definition hunk_lines (a b : list string) (lineterm : string)
    (group : list opcode) : list string :=
  match group, last group with
  | first :: _, Some last =>
      let '(_, f1, _, f3, _) := first in
      let '(_, _, l2, _, l4) := last in
      let file1_range := _format_range_unified f1 l2 in
      let file2_range := _format_range_unified f3 l4 in
      ("@@ -" +:+ file1_range +:+ " +" +:+ file2_range +:+ " @@" +:+ lineterm)
      :: concat (map (group_lines a b) group)
  | _, _ => []
  end.

(** [unified_diff(a, b, fromfile, tofile, lineterm=...)] with the default
    [n = 3] and no file dates; the generator is returned as the list of the
    lines it yields. *)
Definition unified_diff (a b : list string) (fromfile tofile lineterm : string)
    : list string :=
  match get_grouped_opcodes a b 3 with
  | [] => []
  | groups =>
      ("--- " +:+ fromfile +:+ lineterm)
      :: ("+++ " +:+ tofile +:+ lineterm)
      :: concat (map (hunk_lines a b lineterm) groups)
  end.

End difflib.

(** ** Data model *)

(** [@dataclass PatchOperation]; the field [end] is spelled [end_]. *)
Record PatchOperation : Type := {
  op : string;
  file : string;
  start : option Z;
  end_ : option Z;
  line : option Z;
  block : option string;
  blockFile : option string;
  openSpace : bool;
  taskId : option string
}.

(** [@dataclass PatchBatch] *)
Record PatchBatch : Type := {
  orderId : option string;
  requester : string;
  reason : string;
  branch : string;
  patches : list PatchOperation
}.

(** The attributes of a [PatchManager] instance that the methods read. *)
Record PatchManager : Type := {
  orchestrator_url : string;
  dry_run : bool;
  project_root : string
}.

(** The dictionary returned by [apply_operation]. *)
Module OpResult.
Record t : Type := {
  success : bool;
  file : string;
  op : string;
  diff : option string;
  error : option string;
  ts_check_ok : option bool
}.
End OpResult.

(** The dictionary returned by [apply_batch]. *)
Module BatchResult.
Record t : Type := {
  patch_id : string;
  success : bool;
  operations : list OpResult.t;
  total : nat;
  succeeded : nat;
  failed : nat
}.
End BatchResult.

(** The JSON payload posted by [notify_orchestrator]. *)
Module Event.
Record t : Type := {
  patch_id : string;
  file : string;
  op : string;
  status : string;
  task_id : option string;
  ts_check_ok : option bool;
  meta : list (string * Z);
  diff_path : option string
}.
End Event.

(** One entry of the [tasks] array of [.mission_control/tasks.json]:
    [id] is [str(task.get('id'))], [files] is [task.get('files', [])] and
    [allowedOperations] is [task.get('allowedOperations', [])].  (An entry
    without any key has both lists empty, so that treating it as found or as
    not found validates the same operations.) *)
Module TaskDef.
Record t : Type := {
  id : string;
  files : list string;
  allowedOperations : list string
}.
End TaskDef.

(** What [subprocess.run([...], timeout=30)] can do. *)
Inductive subprocess_outcome : Type :=
| CompletedProcess (returncode : Z) (stderr : string)
| TimeoutExpired
| ExecutableNotFound
| OtherError (msg : string).

(** The machine the manager runs on.
    - [run_tsc path fs]: outcome of [npx tsc --noEmit path] on the tree [fs]
      (the checker only reads the tree);
    - [json_load text]: [json.load] of the schema file followed by
      [schema.get('tasks', [])], [None] for a [JSONDecodeError]; a schema
      that parses is taken to have the documented shape (a list of tasks
      with an id, a list of file names and a list of operation kinds);
    - [requests_available]: whether [import requests] succeeds;
    - [post_ok url event]: whether [requests.post] and [raise_for_status]
      return without raising;
    - [tempfile_name]: name given by [tempfile.NamedTemporaryFile];
    - [generated_patch_id]: the value of
      [f"patch-{os.getpid()}-{int(time.time())}"]. *)
Record Host : Type := {
  run_tsc : string → gmap string string → subprocess_outcome;
  json_load : string → option (list TaskDef.t);
  requests_available : bool;
  post_ok : string → Event.t → bool;
  tempfile_name : string;
  generated_patch_id : string
}.

(** The mutable world: the file tree and the requests sent so far. *)
Record World : Type := {
  fs : gmap string string;
  posted : list (string * Event.t)
}.

(** ** Paths *)

(** [pathlib.PurePosixPath]: a path is a root (empty, one slash or two)
    and the list of its components; empty components and [.] are dropped
    when a string is parsed, [..] is kept. *)
Module pathlib.

Record PurePath : Type := {
  root : string;
  parts : list string
}.

Fixpoint lstrip_sep (s : string) : string :=
  match s with
  | String c r => if Ascii.eqb c "/" then lstrip_sep r else s
  | EmptyString => EmptyString
  end.

(** [splitroot(part)]: exactly two leading slashes are a root of their
    own, any other number of them is the root [/]. *)
Definition splitroot (part : string) : string * string :=
  let stripped := lstrip_sep part in
  let n := (String.length part - String.length stripped)%nat in
  (if (n =? 0)%nat then EmptyString
   else if (n =? 2)%nat then "//"
   else "/",
   stripped).

Definition components (rel : string) : list string :=
  filter (λ x, x ≠ EmptyString ∧ x ≠ ".") (split_char "/" rel).

(** [PurePosixPath(s)] *)
Definition Path (s : string) : PurePath :=
  let '(r, rel) := splitroot s in
  {| root := r; parts := components rel |}.

(** [p / rel]: an absolute [rel] replaces [p]. *)
Definition joinpath (p : PurePath) (rel : string) : PurePath :=
  let '(r, rest) := splitroot rel in
  if truthy r then {| root := r; parts := components rest |}
  else {| root := root p; parts := parts p ++ components rest |}.

(** [str(p)] *)
Definition str (p : PurePath) : string :=
  match root p, parts p with
  | EmptyString, [] => "."
  | r, l => r +:+ join "/" l
  end.

End pathlib.

(** [str(root / rel)], the path that [open] and the diff headers receive;
    [root] is the text of a path. *)
Definition path_join (root rel : string) : string :=
  pathlib.str (pathlib.joinpath (pathlib.Path root) rel).

(** [path.exists()] *)
Definition exists_ (fs : gmap string string) (path : string) : bool :=
  bool_decide (is_Some (fs !! path)).

(** [path.name]: the last component that is neither empty nor a dot. *)
Definition path_name (path : string) : string :=
  default EmptyString
    (last (filter (λ c, c ≠ EmptyString ∧ c ≠ ".") (split_char "/" path))).

(** [path.suffix] *)
Definition suffix (path : string) : string :=
  let name := path_name path in
  match rfind "." name with
  | Some i =>
      if ((0 <? i) && (i <? String.length name - 1))%nat
      then substring i (String.length name - i) name
      else EmptyString
  | None => EmptyString
  end.

(** ** [PatchManager] methods: files and content *)

Section Methods.

Variable self : PatchManager.
Variable host : Host.

Definition _read_file (fs : gmap string string) (file_path : string)
    : exn + list string :=
  match fs !! file_path with
  | Some text => inr (readlines text)
  | None =>
      raise (FileNotFoundError
               ("[Errno 2] No such file or directory: " +:+ repr_str file_path))
  end.

(** The write of a file of the tree is taken to succeed: the tree carries
    no permissions and the disk is not full. *)
Definition _write_file (fs : gmap string string) (file_path : string)
    (lines : list string) : gmap string string :=
  if dry_run self then fs
  else <[file_path := writelines lines]> fs.

Definition _get_content (fs : gmap string string) (operation : PatchOperation)
    : exn + string :=
  if truthy_opt (block operation) then
    inr (default EmptyString (block operation))
  else if truthy_opt (blockFile operation) then
    let block_path :=
      path_join (project_root self)
                (default EmptyString (blockFile operation)) in
    match fs !! block_path with
    | Some text => inr (read_text text)
    | None =>
        raise (FileNotFoundError
                 ("[Errno 2] No such file or directory: "
                  +:+ repr_str block_path))
    end
  else raise (ValueError "Either 'block' or 'blockFile' must be provided").

Definition _preserve_indentation (original_line new_content : string)
    : string :=
  if negb (truthy (strip original_line)) then new_content
  else
    let indent :=
      (String.length original_line
       - String.length (lstrip original_line))%nat in
    let indent_str := prefix indent original_line in
    let lines := split_nl new_content in
    match lines with
    | l0 :: rest => join nl ((indent_str +:+ lstrip l0) :: rest)
    | [] => join nl lines
    end.

Definition _generate_unified_diff (file_path : string)
    (original_lines modified_lines : list string) : string :=
  join nl (difflib.unified_diff original_lines modified_lines
             file_path file_path EmptyString).

(** [lines[i]] for an index already known to satisfy [0 <= i < len(lines)] *)
Definition item (lines : list string) (i : Z) : string :=
  default EmptyString (lines !! Z.to_nat i).

(** ** The line editor *)

Definition replace_block (fs : gmap string string) (file_path : string)
    (start_line end_line : Z) (new_content : string) (preserve_indent : bool)
    : exn + (list string * string) :=
  lines ← _read_file fs file_path;
  let original_lines := lines in
  let start_idx := start_line - 1 in
  let end_idx := end_line in
  if (start_idx <? 0) || (len lines <? end_idx) then
    raise (ValueError
             ("Line numbers out of range: " +:+ str_Z start_line +:+ "-"
              +:+ str_Z end_line +:+ " (file has " +:+ str_Z (len lines)
              +:+ " lines)"))
  else
    let new_content :=
      if preserve_indent && (start_idx <? len lines)
      then _preserve_indentation (item lines start_idx) new_content
      else new_content in
    let new_lines := split_nl new_content in
    let new_lines :=
      if bool_decide (new_lines ≠ []) && negb (endswith_nl new_content)
      then new_lines
      else map (λ line, if negb (endswith_nl line) then line +:+ nl else line)
               new_lines in
    let modified_lines :=
      slice_to lines start_idx ++ new_lines ++ slice_from lines end_idx in
    let diff := _generate_unified_diff file_path original_lines modified_lines in
    mret (modified_lines, diff).

Definition insert_before (fs : gmap string string) (file_path : string)
    (line_number : Z) (new_content : string) (preserve_indent : bool)
    : exn + (list string * string) :=
  lines ← _read_file fs file_path;
  let original_lines := lines in
  let insert_idx := line_number - 1 in
  if (insert_idx <? 0) || (len lines <? insert_idx) then
    raise (ValueError
             ("Line number out of range: " +:+ str_Z line_number
              +:+ " (file has " +:+ str_Z (len lines) +:+ " lines)"))
  else
    let new_content :=
      if preserve_indent && (insert_idx <? len lines)
      then _preserve_indentation (item lines insert_idx) new_content
      else new_content in
    let new_lines := split_nl new_content in
    let new_lines :=
      map (λ line, if negb (endswith_nl line) && truthy line
                   then line +:+ nl else line) new_lines in
    let modified_lines :=
      slice_to lines insert_idx ++ new_lines ++ slice_from lines insert_idx in
    let diff := _generate_unified_diff file_path original_lines modified_lines in
    mret (modified_lines, diff).

Definition insert_after (fs : gmap string string) (file_path : string)
    (line_number : Z) (new_content : string) (preserve_indent : bool)
    : exn + (list string * string) :=
  lines ← _read_file fs file_path;
  let original_lines := lines in
  let insert_idx := line_number in
  if (insert_idx <? 0) || (len lines <? insert_idx) then
    raise (ValueError
             ("Line number out of range: " +:+ str_Z line_number
              +:+ " (file has " +:+ str_Z (len lines) +:+ " lines)"))
  else
    let new_content :=
      if preserve_indent && (0 <? insert_idx)
      then _preserve_indentation (item lines (insert_idx - 1)) new_content
      else new_content in
    let new_lines := split_nl new_content in
    let new_lines :=
      map (λ line, if negb (endswith_nl line) && truthy line
                   then line +:+ nl else line) new_lines in
    let modified_lines :=
      slice_to lines insert_idx ++ new_lines ++ slice_from lines insert_idx in
    let diff := _generate_unified_diff file_path original_lines modified_lines in
    mret (modified_lines, diff).

Definition append (fs : gmap string string) (file_path : string)
    (new_content : string) : exn + (list string * string) :=
  lines ← _read_file fs file_path;
  let original_lines := lines in
  let new_content :=
    if negb (endswith_nl new_content) then new_content +:+ nl
    else new_content in
  let new_lines := split_nl new_content in
  let new_lines :=
    map (λ line, if truthy line then line +:+ nl else line) new_lines in
  let modified_lines := lines ++ new_lines in
  let diff := _generate_unified_diff file_path original_lines modified_lines in
  mret (modified_lines, diff).

Definition prepend (fs : gmap string string) (file_path : string)
    (new_content : string) : exn + (list string * string) :=
  lines ← _read_file fs file_path;
  let original_lines := lines in
  let new_content :=
    if negb (endswith_nl new_content) then new_content +:+ nl
    else new_content in
  let new_lines := split_nl new_content in
  let new_lines :=
    map (λ line, if truthy line then line +:+ nl else line) new_lines in
  let modified_lines := new_lines ++ lines in
  let diff := _generate_unified_diff file_path original_lines modified_lines in
  mret (modified_lines, diff).

End Methods.

(** ** [PatchManager] methods: operations, validation, notification *)

Section Batch.

Variable self : PatchManager.
Variable host : Host.

(** [None] is Python's [None]; [Some true] and [Some false] are the two
    booleans. *)
Definition _check_typescript (fs : gmap string string) (file_path : string)
    : option bool :=
  match run_tsc host file_path fs with
  | CompletedProcess returncode _ =>
      if returncode =? 0 then Some true else Some false
  | TimeoutExpired => Some false
  | ExecutableNotFound => None
  | OtherError _ => Some false
  end.

(** The [if]/[elif] chain inside the [try] of [apply_operation]. *)
Definition dispatch (fs : gmap string string) (file_path : string)
    (operation : PatchOperation) (content : string)
    : exn + (list string * string) :=
  if String.eqb (op operation) "replace-block" then
    match start operation, end_ operation with
    | Some start, Some end_ =>
        replace_block fs file_path start end_ content
                      (negb (openSpace operation))
    | _, _ =>
        raise (ValueError
                 "replace-block requires 'start' and 'end' line numbers")
    end
  else if String.eqb (op operation) "insert-before" then
    match line operation with
    | Some line =>
        insert_before fs file_path line content (negb (openSpace operation))
    | None => raise (ValueError "insert-before requires 'line' number")
    end
  else if String.eqb (op operation) "insert-after" then
    match line operation with
    | Some line =>
        insert_after fs file_path line content (negb (openSpace operation))
    | None => raise (ValueError "insert-after requires 'line' number")
    end
  else if String.eqb (op operation) "append" then
    append fs file_path content
  else if String.eqb (op operation) "prepend" then
    prepend fs file_path content
  else raise (ValueError ("Unknown operation type: " +:+ op operation)).

(** [apply_operation] returns the raised exception or the result dictionary,
    and the file tree it leaves.  The existence check and the content lookup
    stand before the [try]; everything after is inside it. *)
Definition apply_operation (fs : gmap string string)
    (operation : PatchOperation)
    : (exn + OpResult.t) * gmap string string :=
  let file_path := path_join (project_root self) (file operation) in
  if negb (exists_ fs file_path) then
    (raise (FileNotFoundError ("File not found: " +:+ file_path)), fs)
  else
    match _get_content self fs operation with
    | inl e => (inl e, fs)
    | inr content =>
        match dispatch fs file_path operation content with
        | inr (modified_lines, diff) =>
            let fs := _write_file self fs file_path modified_lines in
            let ts_check_ok :=
              if bool_decide (suffix file_path ∈ [".ts"; ".tsx"])
              then _check_typescript fs file_path
              else None in
            (inr {| OpResult.success := true;
                    OpResult.file := file operation;
                    OpResult.op := op operation;
                    OpResult.diff := Some diff;
                    OpResult.error := None;
                    OpResult.ts_check_ok := ts_check_ok |}, fs)
        | inl e =>
            (inr {| OpResult.success := false;
                    OpResult.file := file operation;
                    OpResult.op := op operation;
                    OpResult.diff := None;
                    OpResult.error := Some (str_exn e);
                    OpResult.ts_check_ok := Some false |}, fs)
        end
    end.

(** The [for task in schema.get('tasks', [])] search: the first task whose
    id, as a string, equals the operation's task id. *)
Fixpoint find_task_def (tasks : list TaskDef.t) (task_id : string)
    : option TaskDef.t :=
  match tasks with
  | [] => None
  | task :: rest =>
      if String.eqb (TaskDef.id task) task_id then Some task
      else find_task_def rest task_id
  end.

(** The body of the [for i, operation in enumerate(batch.patches)] loop of
    [_validate_against_task_schema]. *)
Definition validate_operation (tasks : list TaskDef.t) (i : nat)
    (operation : PatchOperation) : exn + unit :=
  if truthy_opt (taskId operation) then
    let task_id := default EmptyString (taskId operation) in
    match find_task_def tasks task_id with
    | Some task_def =>
        let expected_files := TaskDef.files task_def in
        if bool_decide (expected_files ≠ [])
           && negb (bool_decide (file operation ∈ expected_files))
        then
          raise (ValueError
                   ("Operation " +:+ difflib.str_nat (i + 1) +:+ ": File '"
                    +:+ file operation +:+ "' not in allowed files for task "
                    +:+ task_id +:+ ": " +:+ repr_list expected_files))
        else
          let expected_ops := TaskDef.allowedOperations task_def in
          if bool_decide (expected_ops ≠ [])
             && negb (bool_decide (op operation ∈ expected_ops))
          then
            raise (ValueError
                     ("Operation " +:+ difflib.str_nat (i + 1)
                      +:+ ": Operation '" +:+ op operation
                      +:+ "' not in allowed operations for task "
                      +:+ task_id +:+ ": " +:+ repr_list expected_ops))
          else mret tt
    | None => mret tt
    end
  else mret tt.

Fixpoint validate_operations (tasks : list TaskDef.t) (i : nat)
    (operations : list PatchOperation) : exn + unit :=
  match operations with
  | [] => mret tt
  | operation :: rest =>
      _ ← validate_operation tasks i operation;
      validate_operations tasks (S i) rest
  end.

Definition schema_path : string :=
  path_join (path_join (project_root self) ".mission_control") "tasks.json".

Definition _validate_against_task_schema (fs : gmap string string)
    (batch : PatchBatch) : exn + unit :=
  match fs !! schema_path with
  | None => mret tt
  | Some text =>
      match json_load host (read_text text) with
      | None => mret tt
      | Some tasks =>
          match validate_operations tasks 0 (patches batch) with
          | inl e =>
              raise (ValueError
                       ("Task schema validation failed: " +:+ str_exn e))
          | inr _ => mret tt
          end
      end
  end.

Definition notify_orchestrator (w : World) (patch_id file op status : string)
    (task_id : option string) (ts_check_ok : option bool)
    (diff : option string) (metadata : option (list (string * Z)))
    : bool * World :=
  if negb (requests_available host) then (false, w)
  else
    let event_data :=
      {| Event.patch_id := patch_id;
         Event.file := file;
         Event.op := op;
         Event.status := status;
         Event.task_id := task_id;
         Event.ts_check_ok := ts_check_ok;
         Event.meta := default [] metadata;
         Event.diff_path := None |} in
    let '(event_data, w) :=
      if truthy_opt diff then
        ({| Event.patch_id := patch_id;
            Event.file := file;
            Event.op := op;
            Event.status := status;
            Event.task_id := task_id;
            Event.ts_check_ok := ts_check_ok;
            Event.meta := default [] metadata;
            Event.diff_path := Some (tempfile_name host) |},
         {| fs := <[tempfile_name host := default EmptyString diff]> (fs w);
            posted := posted w |})
      else (event_data, w) in
    let url := orchestrator_url self +:+ "/api/patches/events" in
    (post_ok host url event_data,
     {| fs := fs w; posted := posted w ++ [(url, event_data)] |}).

(** The [for i, operation in enumerate(batch.patches)] loop of
    [apply_batch]; [results] accumulates the list built by [append]. *)
Fixpoint apply_operations (patch_id : string) (n_total : nat) (i : nat)
    (operations : list PatchOperation) (w : World)
    (results : list OpResult.t) : (exn + list OpResult.t) * World :=
  match operations with
  | [] => (inr results, w)
  | operation :: rest =>
      match apply_operation (fs w) operation with
      | (inl e, fs') => (inl e, {| fs := fs'; posted := posted w |})
      | (inr result, fs') =>
          let w := {| fs := fs'; posted := posted w |} in
          let results := results ++ [result] in
          let w :=
            if OpResult.success result then
              snd (notify_orchestrator w patch_id (file operation)
                     (op operation) "applied" (taskId operation)
                     (OpResult.ts_check_ok result) None
                     (Some [("operation_index", Z.of_nat i);
                            ("total_operations", Z.of_nat n_total)]))
            else w in
          apply_operations patch_id n_total (S i) rest w results
      end
  end.

Definition count_true (l : list bool) : nat := length (filter (λ b, b = true) l).

(** The part of [apply_batch] after validation. *)
Definition run_batch (w : World) (batch : PatchBatch)
    : (exn + BatchResult.t) * World :=
  let patch_id :=
    if truthy_opt (orderId batch) then default EmptyString (orderId batch)
    else generated_patch_id host in
  match apply_operations patch_id (length (patches batch)) 0
          (patches batch) w [] with
  | (inl e, w) => (inl e, w)
  | (inr results, w) =>
      (inr {| BatchResult.patch_id := patch_id;
              BatchResult.success := forallb OpResult.success results;
              BatchResult.operations := results;
              BatchResult.total := length results;
              BatchResult.succeeded :=
                count_true (map OpResult.success results);
              BatchResult.failed :=
                count_true (map (λ r, negb (OpResult.success r)) results) |},
       w)
  end.

Definition apply_batch (w : World) (batch : PatchBatch)
    : (exn + BatchResult.t) * World :=
  match _validate_against_task_schema (fs w) batch with
  | inl e => (inl e, w)
  | inr _ => run_batch w batch
  end.

End Batch.

(** ** Reference notions used to state the claims

    These two definitions are not part of the module: they fix what the
    claims mean by "the lines of a content" and by "applying a unified
    diff". *)

(** Number of lines of a text, counted as for a file: one per newline, plus
    one for a last line that lacks its newline. *)
Definition line_count (content : string) : nat :=
  length (split_keepends content).

(** Application of a unified diff in the standard format: two header lines
    [--- ] and [+++ ], then hunks [@@ -l,s +l,s @@] whose body lines start
    with a space (context), [-] (removed) or [+] (added), each body line
    standing for one newline-terminated line of the file.  As the usual
    tools do, an empty body line is read as an empty context line.  Hunks
    apply at the stated position, without fuzz. *)
Module UnifiedDiff.

Inductive body_line : Type :=
| Context (s : string)
| Removed (s : string)
| Added (s : string).

Record hunk : Type := {
  old_start : nat;
  old_count : nat;
  new_start : nat;
  new_count : nat;
  body : list body_line
}.

Definition digit (c : ascii) : option nat :=
  let n := nat_of_ascii c in
  if ((48 <=? n) && (n <=? 57))%nat then Some (n - 48)%nat else None.

Fixpoint parse_digits (acc : nat) (s : string) : option nat :=
  match s with
  | EmptyString => Some acc
  | String c r => d ← digit c; parse_digits (10 * acc + d)%nat r
  end.

Definition parse_nat (s : string) : option nat :=
  match s with
  | EmptyString => None
  | _ => parse_digits 0 s
  end.

(** [l,s] or [l] (one line) *)
Definition parse_range (sign : ascii) (s : string) : option (nat * nat) :=
  match s with
  | String c r =>
      if Ascii.eqb c sign then
        match split_char "," r with
        | [l] => n ← parse_nat l; Some (n, 1%nat)
        | [l; k] => n ← parse_nat l; m ← parse_nat k; Some (n, m)
        | _ => None
        end
      else None
  | EmptyString => None
  end.

Definition parse_header (line : string) : option (nat * nat * nat * nat) :=
  match split_char " " line with
  | at1 :: o :: n :: at2 :: _ =>
      if String.eqb at1 "@@" && String.eqb at2 "@@" then
        '(os, oc) ← parse_range "-" o;
        '(ns, nc) ← parse_range "+" n;
        Some (os, oc, ns, nc)
      else None
  | _ => None
  end.

(** Reads the body of a hunk with [oc] old and [nc] new lines still
    expected; returns the body and the unread lines. *)
Fixpoint parse_body (oc nc : nat) (lines : list string)
    : option (list body_line * list string) :=
  match oc, nc with
  | O, O => Some ([], lines)
  | _, _ =>
      match lines with
      | [] => None
      | EmptyString :: rest =>
          match oc, nc with
          | S oc', S nc' =>
              '(b, rest') ← parse_body oc' nc' rest;
              Some (Context EmptyString :: b, rest')
          | _, _ => None
          end
      | String c s :: rest =>
          if Ascii.eqb c " " then
            match oc, nc with
            | S oc', S nc' =>
                '(b, rest') ← parse_body oc' nc' rest;
                Some (Context s :: b, rest')
            | _, _ => None
            end
          else if Ascii.eqb c "-" then
            match oc with
            | S oc' =>
                '(b, rest') ← parse_body oc' nc rest;
                Some (Removed s :: b, rest')
            | O => None
            end
          else if Ascii.eqb c "+" then
            match nc with
            | S nc' =>
                '(b, rest') ← parse_body oc nc' rest;
                Some (Added s :: b, rest')
            | O => None
            end
          else None
      end
  end.

Fixpoint parse_hunks (fuel : nat) (lines : list string)
    : option (list hunk) :=
  match lines with
  | [] => Some []
  | header :: rest =>
      match fuel with
      | O => None
      | S fuel' =>
          '(os, oc, ns, nc) ← parse_header header;
          '(b, rest') ← parse_body oc nc rest;
          hs ← parse_hunks fuel' rest';
          Some ({| old_start := os; old_count := oc;
                   new_start := ns; new_count := nc; body := b |} :: hs)
      end
  end.

Definition starts_with (p s : string) : bool :=
  String.eqb (prefix (String.length p) s) p.

(** The lines of a diff text; a final newline ends the last line. *)
Definition diff_lines (diff : string) : list string :=
  match reverse (split_nl diff) with
  | EmptyString :: r => reverse r
  | _ => split_nl diff
  end.

Definition parse (diff : string) : option (list hunk) :=
  match diff_lines diff with
  | from :: to :: rest =>
      if starts_with "--- " from && starts_with "+++ " to
      then parse_hunks (length rest) rest
      else None
  | _ => None
  end.

(** Runs a hunk body against the old lines, returning the lines produced
    and the old lines left. *)
Fixpoint apply_body (b : list body_line) (old : list string)
    : option (list string * list string) :=
  match b with
  | [] => Some ([], old)
  | Added s :: b' =>
      '(out, old') ← apply_body b' old;
      Some ((s +:+ nl) :: out, old')
  | Context s :: b' =>
      match old with
      | l :: old' =>
          if String.eqb l (s +:+ nl) then
            '(out, old'') ← apply_body b' old';
            Some (l :: out, old'')
          else None
      | [] => None
      end
  | Removed s :: b' =>
      match old with
      | l :: old' =>
          if String.eqb l (s +:+ nl) then apply_body b' old' else None
      | [] => None
      end
  end.

(** [pos] is the number of old lines already consumed. *)
Fixpoint apply_hunks (hs : list hunk) (pos : nat) (old : list string)
    : option (list string) :=
  match hs with
  | [] => Some old
  | h :: hs' =>
      let at_ := if (old_count h =? 0)%nat then old_start h
                 else (old_start h - 1)%nat in
      if (pos <=? at_)%nat && (at_ - pos <=? length old)%nat then
        '(out, old') ← apply_body (body h) (drop (at_ - pos) old);
        rest ← apply_hunks hs' (at_ + old_count h) old';
        Some (take (at_ - pos) old ++ out ++ rest)
      else None
  end.

(** The file text obtained by applying [diff] to the text [pre]; the empty
    diff changes nothing. *)
Definition apply (diff pre : string) : option string :=
  match diff with
  | EmptyString => Some pre
  | _ =>
      hs ← parse diff;
      out ← apply_hunks hs 0 (split_keepends pre);
      Some (writelines out)
  end.

End UnifiedDiff.

(** ** Predicates and expected values used in the statements *)

(** An operation is acceptable to a schema when it carries no task id, or
    its task id is unknown to the schema, or the task found allows both its
    file and its operation kind (an empty allow-list allows everything). *)
Definition acceptable (tasks : list TaskDef.t) (operation : PatchOperation)
    : Prop :=
  truthy_opt (taskId operation) = false
  ∨ find_task_def tasks (default EmptyString (taskId operation)) = None
  ∨ ∃ task_def,
      find_task_def tasks (default EmptyString (taskId operation))
        = Some task_def
      ∧ (TaskDef.files task_def = []
         ∨ file operation ∈ TaskDef.files task_def)
      ∧ (TaskDef.allowedOperations task_def = []
         ∨ op operation ∈ TaskDef.allowedOperations task_def).

(** Invariants of [difflib.find_longest_match], for the window
    [alo..ahi] of [a] and [blo..bhi] of [b]: [rows] is the number of rows of
    the window scanned so far. *)
Definition row_ok (alo blo bhi rows : nat) (j2len : gmap nat nat) : Prop :=
  ∀ j k, j2len !! j = Some k →
         (blo ≤ j < bhi ∧ 1 ≤ k ∧ k + alo ≤ rows ∧ k + blo ≤ j + 1)%nat.

Definition best_ok (alo ahi blo bhi : nat) (best : difflib.Match) : Prop :=
  let '(besti, bestj, bestsize) := best in
  (alo ≤ besti ∧ besti + bestsize ≤ ahi
   ∧ blo ≤ bestj ∧ bestj + bestsize ≤ bhi)%nat.

(** A well-formed window on the stack of [get_matching_blocks], and the
    number of loop iterations it can still cause. *)
Definition box_ok (q : nat * nat * nat * nat) : Prop :=
  let '(alo, ahi, blo, bhi) := q in (alo ≤ ahi ∧ blo ≤ bhi)%nat.

Definition box_weight (q : nat * nat * nat * nat) : nat :=
  let '(alo, ahi, _, _) := q in (2 * (ahi - alo) + 1)%nat.

Definition queue_weight (queue : list (nat * nat * nat * nat)) : nat :=
  foldr (λ q n, (box_weight q + n)%nat) 0%nat queue.

(** An operation is runnable on a tree when its target exists and its
    content can be resolved: inline text, or a block file that exists. *)
Definition runnable (self : PatchManager) (fs : gmap string string)
    (operation : PatchOperation) : Prop :=
  exists_ fs (path_join (project_root self) (file operation)) = true
  ∧ (truthy_opt (block operation) = true
     ∨ truthy_opt (blockFile operation) = true
       ∧ exists_ fs (path_join (project_root self)
                       (default EmptyString (blockFile operation))) = true).

(** The endpoint [notify_orchestrator] posts to. *)
Definition events_url (self : PatchManager) : string :=
  orchestrator_url self +:+ "/api/patches/events".

(** The event [apply_batch] hands to [notify_orchestrator] for the
    operation at index [i] once it has succeeded. *)
Definition applied_event (patch_id : string) (n_total i : nat)
    (operation : PatchOperation) (result : OpResult.t) : Event.t :=
  {| Event.patch_id := patch_id;
     Event.file := file operation;
     Event.op := op operation;
     Event.status := "applied";
     Event.task_id := taskId operation;
     Event.ts_check_ok := OpResult.ts_check_ok result;
     Event.meta := [("operation_index", Z.of_nat i);
                    ("total_operations", Z.of_nat n_total)];
     Event.diff_path := None |}.

(** One [applied] event for every successful result, none for a failed
    one, in the order of the operations. *)
Fixpoint applied_events (patch_id : string) (n_total i : nat)
    (operations : list PatchOperation) (results : list OpResult.t)
    : list Event.t :=
  match operations, results with
  | operation :: operations', result :: results' =>
      (if OpResult.success result
       then [applied_event patch_id n_total i operation result] else [])
      ++ applied_events patch_id n_total (S i) operations' results'
  | _, _ => []
  end.

(** [d] is the unified diff between the lines of the operation's target in
    [fs] and the lines its edit computes from them. *)
Definition computed_diff (self : PatchManager) (fs : gmap string string)
    (operation : PatchOperation) (d : string) : Prop :=
  let file_path := path_join (project_root self) (file operation) in
  ∃ content lines modified_lines,
    _get_content self fs operation = inr content
    ∧ _read_file fs file_path = inr lines
    ∧ dispatch fs file_path operation content = inr (modified_lines, d)
    ∧ d = _generate_unified_diff file_path lines modified_lines.

(** A line as [readlines] returns it: a newline can only be its last
    character. *)
Fixpoint is_line (s : string) : bool :=
  match s with
  | EmptyString => true
  | String c r => if Ascii.eqb c LF then negb (truthy r) else is_line r
  end.

(** ** Sample managers, hosts, trees and operations *)

Definition manager : PatchManager :=
  {| orchestrator_url := "http://localhost:8787";
     dry_run := false;
     project_root := "/proj" |}.

Definition dry_manager : PatchManager :=
  {| orchestrator_url := "http://localhost:8787";
     dry_run := true;
     project_root := "/proj" |}.

(** A host without [npx], without a readable schema, with a reachable
    orchestrator. *)
Definition plain_host : Host :=
  {| run_tsc := λ _ _, ExecutableNotFound;
     json_load := λ _, None;
     requests_available := true;
     post_ok := λ _ _, true;
     tempfile_name := "/tmp/tmp0.diff";
     generated_patch_id := "patch-4242-1700000000" |}.

(** The same host with a type checker that never answers in time. *)
Definition slow_checker_host : Host :=
  {| run_tsc := λ _ _, TimeoutExpired;
     json_load := λ _, None;
     requests_available := true;
     post_ok := λ _ _, true;
     tempfile_name := "/tmp/tmp0.diff";
     generated_patch_id := "patch-4242-1700000000" |}.

Definition dq : string := String (ascii_of_nat 34) EmptyString.

(** The schema of the specification's example: task 1 may touch [a.py]. *)
Definition schema_text : string :=
  "{" +:+ dq +:+ "tasks" +:+ dq +:+ ": [{" +:+ dq +:+ "id" +:+ dq +:+ ": "
  +:+ dq +:+ "1" +:+ dq +:+ ", " +:+ dq +:+ "files" +:+ dq +:+ ": ["
  +:+ dq +:+ "a.py" +:+ dq +:+ "]}]}".

Definition schema_tasks : list TaskDef.t :=
  [{| TaskDef.id := "1";
      TaskDef.files := ["a.py"];
      TaskDef.allowedOperations := [] |}].

(** A host whose JSON parser reads [schema_text] and rejects any other
    text. *)
Definition schema_host : Host :=
  {| run_tsc := λ _ _, ExecutableNotFound;
     json_load := λ text,
       if String.eqb text schema_text then Some schema_tasks else None;
     requests_available := true;
     post_ok := λ _ _, true;
     tempfile_name := "/tmp/tmp0.diff";
     generated_patch_id := "patch-4242-1700000000" |}.

Definition greet_text : string :=
  "def greet():" +:+ nl +:+ "    return 'hi'" +:+ nl.

Definition tree : gmap string string :=
  {[ "/proj/greet.py" := greet_text;
     "/proj/a.txt" := "a" +:+ nl;
     "/proj/az.txt" := "a" +:+ nl +:+ "z" +:+ nl;
     "/proj/empty.txt" := EmptyString;
     "/proj/a.py" := "x = 1" +:+ nl;
     "/proj/b.py" := "y = 1" +:+ nl;
     "/proj/app.ts" := "const value = 1;" +:+ nl ]}.

Definition tree_with_schema : gmap string string :=
  <["/proj/.mission_control/tasks.json" := schema_text]> tree.

Definition tree_with_broken_schema : gmap string string :=
  <["/proj/.mission_control/tasks.json" := "{not json"]> tree.

Definition world_of (t : gmap string string) : World :=
  {| fs := t; posted := [] |}.

Definition batch_of (operations : list PatchOperation) : PatchBatch :=
  {| orderId := Some "order-1";
     requester := "agent";
     reason := EmptyString;
     branch := EmptyString;
     patches := operations |}.

Definition append_to (target : string) (text : string) (task : option string)
    : PatchOperation :=
  {| op := "append"; file := target; start := None; end_ := None;
     line := None; block := Some text; blockFile := None;
     openSpace := false; taskId := task |}.

Definition replace_in (target : string) (first last : Z) (text : string)
    : PatchOperation :=
  {| op := "replace-block"; file := target; start := Some first;
     end_ := Some last; line := None; block := Some text;
     blockFile := None; openSpace := false; taskId := None |}.

Definition insert_before_in (target : string) (at_line : Z) (text : string)
    : PatchOperation :=
  {| op := "insert-before"; file := target; start := None; end_ := None;
     line := Some at_line; block := Some text; blockFile := None;
     openSpace := false; taskId := None |}.

(** An operation with neither inline content nor a block file. *)
Definition append_nothing_to (target : string) : PatchOperation :=
  {| op := "append"; file := target; start := None; end_ := None;
     line := None; block := None; blockFile := None;
     openSpace := false; taskId := None |}.

(** A batch whose first operation is out of range and whose second is
    valid, and the result [apply_batch] returns for it on [tree]. *)
Definition mixed_batch : PatchBatch :=
  batch_of [replace_in "greet.py" 5 5 "x"; append_to "a.txt" "zz" None].

Definition mixed_batch_result : BatchResult.t :=
  {| BatchResult.patch_id := "order-1";
     BatchResult.success := false;
     BatchResult.operations :=
       [{| OpResult.success := false;
           OpResult.file := "greet.py";
           OpResult.op := "replace-block";
           OpResult.diff := None;
           OpResult.error :=
             Some "Line numbers out of range: 5-5 (file has 2 lines)";
           OpResult.ts_check_ok := Some false |};
        {| OpResult.success := true;
           OpResult.file := "a.txt";
           OpResult.op := "append";
           OpResult.diff :=
             Some (join nl ["--- /proj/a.txt"; "+++ /proj/a.txt";
                            "@@ -1 +1,3 @@"; " a"; EmptyString;
                            "+zz"; EmptyString; "+"]);
           OpResult.error := None;
           OpResult.ts_check_ok := None |}];
     BatchResult.total := 2;
     BatchResult.succeeded := 1;
     BatchResult.failed := 1 |}.

(** ** Tactics for statements about the samples *)

(** Closes a decidable goal about concrete data by evaluation. *)
(** Proves [l = r] by evaluating both sides, without spelling out the
    normal form in the proof. *)
Ltac vm_refl :=
  match goal with |- ?l = ?r => vm_cast_no_check (@eq_refl _ r) end.

Ltac by_evaluation :=
  first [ reflexivity
        | vm_compute; reflexivity
        | apply (bool_decide_unpack _); vm_compute; exact I
        | solve [repeat constructor] ].

(** ** Further notions used in the statements about the remaining methods *)

Definition CR_free (s : string) : Prop := count_char CR s = 0%nat.
Definition LF_free (s : string) : Prop := count_char LF s = 0%nat.

(** The non-empty lines of a content, each with its newline: what [append]
    and [prepend] add to a file. *)
Definition nonblank_lines (content : string) : list string :=
  map (λ l, l +:+ nl) (filter (λ l, truthy l = true) (split_nl content)).

(** [s.replace('\n', '')] *)
Fixpoint without_newlines (s : string) : string :=
  match s with
  | EmptyString => EmptyString
  | String c r =>
      if Ascii.eqb c LF then without_newlines r
      else String c (without_newlines r)
  end.

(** The text [replace_block] puts in place of the block, for the content
    it splits (after indentation): the content and one more newline when
    the content ends with a newline, the content with its newlines removed
    otherwise. *)
Definition replacement_text (content : string) : string :=
  if endswith_nl content then content +:+ nl else without_newlines content.

(** The content [replace_block] splits: the given one, or the re-indented
    one when indentation is preserved and the start line exists. *)
Definition indented (lines : list string) (idx : Z) (preserve : bool)
    (content : string) : string :=
  if preserve && (idx <? len lines)
  then _preserve_indentation (item lines idx) content
  else content.

(** The content [insert_after] splits: indentation is copied from the line
    the content is inserted after, when there is one. *)
Definition indented_from_previous (lines : list string) (line_number : Z)
    (preserve : bool) (content : string) : string :=
  if preserve && (0 <? line_number)
  then _preserve_indentation (item lines (line_number - 1)) content
  else content.

(** The entries the two insertions build from a content: its pieces between
    newlines, in order, each non-empty piece with a newline added and each
    empty piece kept as an empty entry. *)
Definition terminated_pieces (content : string) : list string :=
  map (λ piece, if truthy piece then piece +:+ nl else piece)
      (split_nl content).

(** A buffer with entries inserted after its first [k] lines. *)
Definition inserted_at (lines : list string) (k : nat)
    (entries : list string) : list string :=
  take k lines ++ entries ++ drop k lines.

(** The leading whitespace of a line, as [_preserve_indentation] cuts it. *)
Definition indent_of (original_line : string) : string :=
  prefix (String.length original_line
          - String.length (lstrip original_line))%nat original_line.

(** The tree left by applying operations one after the other, each on the
    tree left by the one before. *)
Definition apply_all (self : PatchManager) (host : Host)
    (fs : gmap string string) (operations : list PatchOperation)
    : gmap string string :=
  foldl (λ fs operation, snd (apply_operation self host fs operation))
        fs operations.


(** A path that reaches its file without going through a parent
    reference: the operating system resolves [..], the tree does not. *)
Definition no_parent_reference (path : string) : Prop :=
  ".." ∉ split_char "/" path.

(** The mistakes in an operation that the editing methods reject, with the
    text of the [ValueError] each one raises, for a target of [n] lines:
    a missing line number, a line number out of range, an unknown kind. *)
Definition rejection (operation : PatchOperation) (n : Z) : option string :=
  if String.eqb (op operation) "replace-block" then
    match start operation, end_ operation with
    | Some first, Some last =>
        if (first <? 1) || (n <? last) then
          Some ("Line numbers out of range: " +:+ str_Z first +:+ "-"
                +:+ str_Z last +:+ " (file has " +:+ str_Z n +:+ " lines)")
        else None
    | _, _ => Some "replace-block requires 'start' and 'end' line numbers"
    end
  else if String.eqb (op operation) "insert-before" then
    match line operation with
    | Some at_line =>
        if (at_line <? 1) || (n + 1 <? at_line) then
          Some ("Line number out of range: " +:+ str_Z at_line
                +:+ " (file has " +:+ str_Z n +:+ " lines)")
        else None
    | None => Some "insert-before requires 'line' number"
    end
  else if String.eqb (op operation) "insert-after" then
    match line operation with
    | Some at_line =>
        if (at_line <? 0) || (n <? at_line) then
          Some ("Line number out of range: " +:+ str_Z at_line
                +:+ " (file has " +:+ str_Z n +:+ " lines)")
        else None
    | None => Some "insert-after requires 'line' number"
    end
  else if String.eqb (op operation) "append" then None
  else if String.eqb (op operation) "prepend" then None
  else Some ("Unknown operation type: " +:+ op operation).

(** The result [apply_operation] returns for an operation whose editing
    step raised an exception with text [msg]. *)
Definition failed_result (operation : PatchOperation) (msg : string)
    : OpResult.t :=
  {| OpResult.success := false;
     OpResult.file := file operation;
     OpResult.op := op operation;
     OpResult.diff := None;
     OpResult.error := Some msg;
     OpResult.ts_check_ok := Some false |}.

(** The manager [self] with its [dry_run] attribute set to [flag]. *)
Definition set_dry_run (self : PatchManager) (flag : bool) : PatchManager :=
  {| orchestrator_url := orchestrator_url self;
     dry_run := flag;
     project_root := project_root self |}.

(** A result without its type-check field. *)
Definition without_type_check (r : OpResult.t)
    : bool * string * string * option string * option string :=
  (OpResult.success r, OpResult.file r, OpResult.op r, OpResult.diff r,
   OpResult.error r).

(** Two hosts on which the type checker and the JSON parser behave alike
    and which generate the same batch id; they may differ in everything
    that concerns the orchestrator. *)
Definition same_machine (host1 host2 : Host) : Prop :=
  (∀ path fs, run_tsc host1 path fs = run_tsc host2 path fs)
  ∧ (∀ text, json_load host1 text = json_load host2 text)
  ∧ generated_patch_id host1 = generated_patch_id host2.

(** A host that cannot reach the orchestrator: no HTTP client library. *)
Definition offline_host : Host :=
  {| run_tsc := λ _ _, ExecutableNotFound;
     json_load := λ _, None;
     requests_available := false;
     post_ok := λ _ _, false;
     tempfile_name := "/tmp/tmp1.diff";
     generated_patch_id := "patch-4242-1700000000" |}.

(** A schema that also restricts the kinds of operation: task 1 may only
    append to [a.py]. *)
Definition strict_schema_text : string :=
  "{" +:+ dq +:+ "tasks" +:+ dq +:+ ": [{" +:+ dq +:+ "id" +:+ dq +:+ ": "
  +:+ dq +:+ "1" +:+ dq +:+ ", " +:+ dq +:+ "files" +:+ dq +:+ ": ["
  +:+ dq +:+ "a.py" +:+ dq +:+ "], " +:+ dq +:+ "allowedOperations" +:+ dq
  +:+ ": [" +:+ dq +:+ "append" +:+ dq +:+ "]}]}".

Definition strict_schema_tasks : list TaskDef.t :=
  [{| TaskDef.id := "1";
      TaskDef.files := ["a.py"];
      TaskDef.allowedOperations := ["append"] |}].

Definition strict_schema_host : Host :=
  {| run_tsc := λ _ _, ExecutableNotFound;
     json_load := λ text,
       if String.eqb text strict_schema_text then Some strict_schema_tasks
       else None;
     requests_available := true;
     post_ok := λ _ _, true;
     tempfile_name := "/tmp/tmp0.diff";
     generated_patch_id := "patch-4242-1700000000" |}.

Definition tree_with_strict_schema : gmap string string :=
  <["/proj/.mission_control/tasks.json" := strict_schema_text]> tree.

Definition prepend_to (target : string) (text : string) (task : option string)
    : PatchOperation :=
  {| op := "prepend"; file := target; start := None; end_ := None;
     line := None; block := Some text; blockFile := None;
     openSpace := false; taskId := task |}.

(** A batch whose first operation is valid and whose second names a file
    that does not exist. *)
Definition partial_batch : PatchBatch :=
  batch_of [append_to "a.txt" "zz" None; append_to "missing.py" "x" None].

(** * Properties *)

(** ** Strings and lines *)

Lemma count_char_app c s1 s2 :
  count_char c (s1 +:+ s2) = (count_char c s1 + count_char c s2)%nat.
Proof. induction s1 as [| x r IH]; simpl; [done |]. rewrite IH. lia. Qed.

Lemma split_char_length sep s :
  length (split_char sep s) = S (count_char sep s).
Proof.
  induction s as [| x r IH]; simpl; [done |].
  destruct (Ascii.eqb x sep); simpl; [by rewrite IH |].
  destruct (split_char sep r); simpl in *; [done | lia].
Qed.

Lemma split_char_pieces sep s :
  Forall (λ piece, count_char sep piece = 0%nat) (split_char sep s).
Proof.
  induction s as [| x r IH]; simpl; [by repeat constructor |].
  destruct (Ascii.eqb x sep) eqn:Hx; [by constructor |].
  destruct (split_char sep r) as [| h t]; simpl.
  - repeat constructor. simpl. by rewrite Hx.
  - apply Forall_cons in IH as [Hh Ht]. constructor; [| done].
    simpl. by rewrite Hx.
Qed.

Lemma count_char_join_pieces l :
  Forall (λ piece, count_char LF piece = 0%nat) l →
  count_char LF (join nl l) = (length l - 1)%nat.
Proof.
  induction 1 as [| x l Hx Hl IH]; [done |].
  destruct l as [| y l']; [simpl; lia |].
  change (join nl (x :: y :: l')) with (x +:+ nl +:+ join nl (y :: l')).
  rewrite !count_char_app, Hx, IH. simpl. lia.
Qed.

Lemma count_char_lstrip c s :
  count_char c s = 0%nat → count_char c (lstrip s) = 0%nat.
Proof.
  induction s as [| x r IH]; simpl; [done |].
  destruct (isspace x); simpl; [| done].
  intros H. apply IH. lia.
Qed.

Lemma lstrip_length s : (String.length (lstrip s) ≤ String.length s)%nat.
Proof.
  induction s as [| x r IH]; simpl; [done |].
  destruct (isspace x); simpl; lia.
Qed.

Lemma strip_truthy s : truthy (strip s) = true → truthy (lstrip s) = true.
Proof. unfold strip. by destruct (lstrip s). Qed.

Lemma truthy_length s : truthy s = true → (0 < String.length s)%nat.
Proof. destruct s; simpl; [done | lia]. Qed.

Lemma split_keepends_lines s : Forall (λ l, is_line l = true) (split_keepends s).
Proof.
  induction s as [| x r IH]; simpl; [constructor |].
  destruct (Ascii.eqb x LF) eqn:Hx.
  - constructor; [done | exact IH].
  - destruct (split_keepends r) as [| h t]; simpl.
    + repeat constructor. simpl. by rewrite Hx.
    + apply Forall_cons in IH as [Hh Ht]. constructor; [| done].
      simpl. by rewrite Hx.
Qed.

(** A proper prefix of a line holds no newline. *)
Lemma is_line_prefix s n :
  is_line s = true → (n < String.length s)%nat →
  count_char LF (prefix n s) = 0%nat.
Proof.
  unfold prefix. revert n.
  induction s as [| x r IH]; intros [| n] Hline Hn; simpl in *; try done.
  destruct (Ascii.eqb x LF).
  - destruct r; simpl in *; [lia | done].
  - apply IH; [done | lia].
Qed.

(** Copying the indentation of a line changes no newline of the content. *)
Lemma preserve_indentation_count original_line new_content :
  is_line original_line = true →
  count_char LF (_preserve_indentation original_line new_content)
  = count_char LF new_content.
Proof.
  intros Hline. unfold _preserve_indentation.
  destruct (truthy (strip original_line)) eqn:Hstrip; cbn [negb]; [| done].
  pose proof (split_char_length LF new_content) as Hlen.
  pose proof (split_char_pieces LF new_content) as Hpieces.
  unfold split_nl. destruct (split_char LF new_content) as [| l0 rest];
    [done |].
  apply Forall_cons in Hpieces as [Hl0 Hrest].
  rewrite count_char_join_pieces.
  - simpl in *. lia.
  - constructor; [| done].
    rewrite count_char_app, (count_char_lstrip _ _ Hl0).
    rewrite is_line_prefix; [done | done |].
    apply strip_truthy, truthy_length in Hstrip.
    pose proof (lstrip_length original_line). lia.
Qed.

Lemma indented_count (b : bool) original_line new_content :
  is_line original_line = true →
  count_char LF (if b then _preserve_indentation original_line new_content
                 else new_content)
  = count_char LF new_content.
Proof.
  intros H. destruct b; [by apply preserve_indentation_count | done].
Qed.

Lemma length_if_map {A} (b : bool) (f : A → A) (l : list A) :
  length (if b then l else map f l) = length l.
Proof. destruct b; [done | apply length_map]. Qed.

Lemma item_is_line text i : is_line (item (readlines text) i) = true.
Proof.
  unfold item, readlines.
  destruct (_ !! _) as [l |] eqn:Hl; simpl; [| done].
  pose proof (split_keepends_lines (universal_newlines text)) as Hall.
  rewrite Forall_forall in Hall. apply Hall.
  by eapply list_elem_of_lookup_2.
Qed.

(** ** [difflib]: the matching loop runs to its end

    [blocks_loop] is given [2 * len(a) + 1] iterations; the lemmas below
    show that the stack is empty before they are used up, so that the
    function is the [while queue] loop of the library and not a truncation
    of it. *)

Section Matching.

Variables a b : list string.
Variable b2j : gmap string (list nat).

Lemma best_ok_mono alo ahi ahi' blo bhi best :
  (ahi ≤ ahi')%nat → best_ok alo ahi blo bhi best →
  best_ok alo ahi' blo bhi best.
Proof. destruct best as [[bi bj] bs]. unfold best_ok. lia. Qed.

Lemma scan_row_ok alo blo bhi i j2len js :
  (alo ≤ i)%nat →
  row_ok alo blo bhi i j2len →
  ∀ newj2len best,
    row_ok alo blo bhi (S i) newj2len →
    best_ok alo (S i) blo bhi best →
    row_ok alo blo bhi (S i)
      (fst (difflib.scan_row j2len blo bhi i js newj2len best))
    ∧ best_ok alo (S i) blo bhi
        (snd (difflib.scan_row j2len blo bhi i js newj2len best)).
Proof.
  intros Hi Hprev.
  induction js as [| j js IH]; intros newj2len best Hnew Hbest; [done |].
  simpl. destruct (j <? blo)%nat eqn:Hlo; [by apply IH |].
  destruct (bhi <=? j)%nat eqn:Hhi; [done |].
  apply Nat.ltb_ge in Hlo. apply Nat.leb_gt in Hhi.
  set (k := (match j with
             | O => 0
             | S j' => default 0 (j2len !! j')
             end + 1)%nat).
  assert (1 ≤ k ∧ k + alo ≤ S i ∧ k + blo ≤ j + 1)%nat as Hk.
  { unfold k. destruct j as [| j']; [lia |].
    destruct (j2len !! j') as [k0 |] eqn:Hk0; simpl; [| lia].
    apply Hprev in Hk0. lia. }
  apply IH.
  - intros j0 k0 Hj0. apply lookup_insert_Some in Hj0 as [[<- <-] | [_ Hj0]].
    + lia.
    + by apply Hnew.
  - destruct best as [[bi bj] bs]. destruct (bs <? k)%nat; [| done].
    unfold best_ok. lia.
Qed.

Lemma scan_fold_ok alo blo bhi n :
  ∀ i j2len best,
    (alo ≤ i)%nat →
    row_ok alo blo bhi i j2len →
    best_ok alo i blo bhi best →
    best_ok alo (i + n) blo bhi
      (snd (foldl (λ '(j2len, best) i,
                     let js := match a !! i with
                               | Some x => default [] (b2j !! x)
                               | None => []
                               end in
                     difflib.scan_row j2len blo bhi i js ∅ best)
                  (j2len, best) (seq i n))).
Proof.
  induction n as [| n IH]; intros i j2len best Hi Hrow Hbest.
  - simpl. by rewrite Nat.add_0_r.
  - simpl.
    set (js := match a !! i with
               | Some x => default [] (b2j !! x)
               | None => []
               end).
    destruct (scan_row_ok alo blo bhi i j2len js Hi Hrow ∅ best) as [Hr Hb].
    { intros j k Hjk. by rewrite lookup_empty in Hjk. }
    { eapply best_ok_mono; [| exact Hbest]. lia. }
    destruct (difflib.scan_row j2len blo bhi i js ∅ best) as [new best'].
    replace (i + S n)%nat with (S i + n)%nat by lia.
    apply IH; [lia | done | done].
Qed.

Lemma extend_left_ok alo ahi blo bhi besti :
  ∀ bestj bestsize,
    best_ok alo ahi blo bhi (besti, bestj, bestsize) →
    best_ok alo ahi blo bhi
      (difflib.extend_left a b alo blo besti bestj bestsize).
Proof.
  induction besti as [| i' IH]; intros bestj bestsize Hbest; [done |].
  simpl. destruct bestj as [| j']; [done |].
  destruct (_ && _) eqn:Hcond; [| done].
  apply IH. unfold best_ok in *.
  repeat (apply andb_prop in Hcond as [Hcond ?]).
  apply Nat.ltb_lt in Hcond. rewrite Nat.ltb_lt in *. lia.
Qed.

Lemma extend_right_ok ahi bhi besti bestj fuel :
  ∀ bestsize,
    (besti + bestsize ≤ ahi ∧ bestj + bestsize ≤ bhi)%nat →
    let bestsize' :=
      difflib.extend_right fuel a b ahi bhi besti bestj bestsize in
    (bestsize ≤ bestsize' ∧ besti + bestsize' ≤ ahi
     ∧ bestj + bestsize' ≤ bhi)%nat.
Proof.
  induction fuel as [| fuel IH]; intros bestsize H; simpl; [lia |].
  destruct (_ && _) eqn:Hcond; [| lia].
  repeat (apply andb_prop in Hcond as [Hcond ?]).
  apply Nat.ltb_lt in Hcond. rewrite Nat.ltb_lt in *.
  specialize (IH (S bestsize)). simpl in IH. lia.
Qed.

(** The iterations given to [extend_right] are enough. *)
Lemma extend_right_more_fuel ahi bhi besti bestj extra fuel :
  ∀ bestsize,
    (ahi - (besti + bestsize) ≤ fuel)%nat →
    difflib.extend_right (fuel + extra) a b ahi bhi besti bestj bestsize
    = difflib.extend_right fuel a b ahi bhi besti bestj bestsize.
Proof.
  induction fuel as [| fuel IH]; intros bestsize Hfuel.
  - destruct extra as [| extra]; [done |]. simpl.
    destruct (Nat.ltb_spec (besti + bestsize) ahi); [lia | done].
  - simpl. destruct (_ && _); [| done]. apply IH. lia.
Qed.

(** The match found lies inside the window searched. *)
Lemma find_longest_match_ok alo ahi blo bhi :
  (alo ≤ ahi)%nat → (blo ≤ bhi)%nat →
  best_ok alo ahi blo bhi (difflib.find_longest_match a b b2j alo ahi blo bhi).
Proof.
  intros Ha Hb. unfold difflib.find_longest_match, difflib.scan.
  pose proof (scan_fold_ok alo blo bhi (ahi - alo) alo ∅ (alo, blo, 0%nat))
    as Hscan.
  replace (alo + (ahi - alo))%nat with ahi in Hscan by lia.
  destruct (snd _) as [[bi bj] bs].
  { assert (best_ok alo ahi blo bhi (bi, bj, bs)) as Hbest.
    { apply Hscan; [done | | unfold best_ok; lia].
      intros j k Hjk. by rewrite lookup_empty in Hjk. }
    apply extend_left_ok in Hbest.
    destruct (difflib.extend_left a b alo blo bi bj bs) as [[bi' bj'] bs'].
    unfold best_ok in *.
    pose proof (extend_right_ok ahi bhi bi' bj' (ahi - (bi' + bs')) bs') as Hr.
    simpl in Hr. lia. }
Qed.

Lemma blocks_loop_empty fuel acc :
  difflib.blocks_loop fuel a b b2j [] acc = acc.
Proof. by destruct fuel. Qed.

Lemma box_weight_pos q : (1 ≤ box_weight q)%nat.
Proof. destruct q as [[[alo ahi] blo] bhi]. simpl. lia. Qed.

(** Once the fuel covers the weight of the stack, more fuel changes
    nothing. *)
Lemma blocks_loop_more_fuel extra fuel :
  ∀ queue acc,
    Forall box_ok queue →
    (queue_weight queue ≤ fuel)%nat →
    difflib.blocks_loop (fuel + extra) a b b2j queue acc
    = difflib.blocks_loop fuel a b b2j queue acc.
Proof.
  induction fuel as [| fuel IH]; intros queue acc Hok Hw.
  - destruct queue as [| q rest]; [by rewrite !blocks_loop_empty |].
    simpl in Hw. pose proof (box_weight_pos q). lia.
  - destruct queue as [| [[[alo ahi] blo] bhi] rest]; [done |].
    apply Forall_cons in Hok as [[Ha Hb] Hrest].
    cbn [queue_weight foldr box_weight] in Hw.
    fold (queue_weight rest) in Hw.
    pose proof (find_longest_match_ok alo ahi blo bhi Ha Hb) as Hbest.
    cbn [Nat.add difflib.blocks_loop].
    destruct (difflib.find_longest_match a b b2j alo ahi blo bhi)
      as [[i j] k].
    unfold best_ok in Hbest.
    destruct (k =? 0)%nat eqn:Hk; [apply IH; [done | lia] |].
    apply Nat.eqb_neq in Hk.
    apply IH.
    + destruct (Nat.ltb_spec alo i), (Nat.ltb_spec blo j),
               (Nat.ltb_spec (i + k) ahi), (Nat.ltb_spec (j + k) bhi);
        cbn [andb]; repeat (apply Forall_cons; split); try done;
        unfold box_ok; lia.
    + destruct (Nat.ltb_spec alo i), (Nat.ltb_spec blo j),
               (Nat.ltb_spec (i + k) ahi), (Nat.ltb_spec (j + k) bhi);
        cbn [andb queue_weight foldr box_weight]; fold (queue_weight rest);
        lia.
Qed.

End Matching.

(** [get_matching_blocks] never runs out of iterations: giving the loop
    any number of extra iterations yields the same blocks. *)
Lemma get_matching_blocks_fuel a b extra :
  difflib.blocks_loop (2 * length a + 1 + extra) a b (difflib.chain_b b)
    [(0, length a, 0, length b)%nat] []
  = difflib.blocks_loop (2 * length a + 1) a b (difflib.chain_b b)
      [(0, length a, 0, length b)%nat] [].
Proof.
  apply blocks_loop_more_fuel.
  - repeat constructor; lia.
  - simpl. lia.
Qed.

(** ** The line editor *)

Section LineEditor.

Variable fs : gmap string string.
Variable file_path : string.
Variable text : string.
Hypothesis file_present : fs !! file_path = Some text.

(** [replace_block] raises exactly when [start < 1] or [end] exceeds the
    number of lines; the error names the range and the line count. *)
Lemma replace_block_raises_iff start_line end_line new_content preserve :
  (∃ e, replace_block fs file_path start_line end_line new_content preserve
        = inl e)
  ↔ start_line < 1 ∨ len (readlines text) < end_line.
Proof.
  unfold replace_block, _read_file. rewrite file_present. simpl.
  destruct (start_line - 1 <? 0) eqn:Hs; simpl.
  - apply Z.ltb_lt in Hs. split; [intros _; lia | eauto].
  - apply Z.ltb_ge in Hs.
    destruct (len (readlines text) <? end_line) eqn:He.
    + apply Z.ltb_lt in He. split; [intros _; lia | eauto].
    + apply Z.ltb_ge in He. split; [by intros [? ?] | lia].
Qed.

Lemma replace_block_range_error start_line end_line new_content preserve :
  start_line < 1 ∨ len (readlines text) < end_line →
  replace_block fs file_path start_line end_line new_content preserve
  = inl (ValueError
           ("Line numbers out of range: " +:+ str_Z start_line +:+ "-"
            +:+ str_Z end_line +:+ " (file has "
            +:+ str_Z (len (readlines text)) +:+ " lines)")).
Proof.
  intros H. unfold replace_block, _read_file. rewrite file_present. simpl.
  destruct (start_line - 1 <? 0) eqn:Hs; simpl; [done |].
  apply Z.ltb_ge in Hs.
  destruct (len (readlines text) <? end_line) eqn:He; [done |].
  apply Z.ltb_ge in He. lia.
Qed.

(** The line-count law that [replace_block] does satisfy: the content
    contributes one line per newline character, plus one. *)
Lemma replace_block_length start_line end_line new_content preserve :
  1 ≤ start_line → start_line ≤ end_line →
  end_line ≤ len (readlines text) →
  ∃ modified_lines d,
    replace_block fs file_path start_line end_line new_content preserve
      = inr (modified_lines, d)
    ∧ len modified_lines
      = len (readlines text) - (end_line - start_line + 1)
        + (Z.of_nat (count_char LF new_content) + 1).
Proof.
  intros H1 H2 H3. unfold replace_block, _read_file.
  rewrite file_present. cbn [mbind exn_bind mret exn_ret].
  destruct (start_line - 1 <? 0) eqn:Hs; [apply Z.ltb_lt in Hs; lia |].
  destruct (len (readlines text) <? end_line) eqn:He;
    [apply Z.ltb_lt in He; lia |].
  cbn [orb]. eexists _, _. split; [reflexivity |].
  unfold len in *. rewrite !length_app, length_if_map.
  unfold split_nl. rewrite split_char_length, indented_count
    by apply item_is_line.
  unfold slice_to, slice_from, slice_bound.
  rewrite length_take, length_drop, Hs.
  assert ((end_line <? 0) = false) as -> by lia. lia.
Qed.

End LineEditor.

(** ** The schema validator *)

Section Validation.

Variable self : PatchManager.
Variable host : Host.

(** In a schema whose task ids are pairwise distinct, the search finds
    any task by its id. *)
Lemma find_task_def_unique tasks task_def :
  NoDup (map TaskDef.id tasks) →
  task_def ∈ tasks →
  find_task_def tasks (TaskDef.id task_def) = Some task_def.
Proof.
  induction tasks as [| task rest IH]; intros Hnodup Hin.
  { by apply elem_of_nil in Hin. }
  simpl in *. apply NoDup_cons in Hnodup as [Hfresh Hnodup].
  apply elem_of_cons in Hin as [<- | Hin].
  - by rewrite String.eqb_refl.
  - destruct (String.eqb_spec (TaskDef.id task) (TaskDef.id task_def))
      as [Heq | _]; [| by apply IH].
    exfalso. apply Hfresh. rewrite Heq. apply list_elem_of_fmap. eauto.
Qed.

Lemma validate_operation_acceptable tasks i operation :
  acceptable tasks operation →
  validate_operation tasks i operation = inr tt.
Proof.
  unfold acceptable, validate_operation.
  intros [Hno | [Hunknown | (t & Hfind & Hfiles & Hops)]].
  - by rewrite Hno.
  - destruct (truthy_opt _); [by rewrite Hunknown | done].
  - destruct (truthy_opt _); [| done].
    rewrite Hfind.
    assert (bool_decide (TaskDef.files t ≠ [])
            && negb (bool_decide (file operation ∈ TaskDef.files t)) = false)
      as ->.
    { destruct Hfiles as [-> | Hin]; [done |].
      rewrite (bool_decide_eq_true_2 _ Hin). by rewrite andb_false_r. }
    assert (bool_decide (TaskDef.allowedOperations t ≠ [])
            && negb (bool_decide
                       (op operation ∈ TaskDef.allowedOperations t)) = false)
      as ->.
    { destruct Hops as [-> | Hin]; [done |].
      rewrite (bool_decide_eq_true_2 _ Hin). by rewrite andb_false_r. }
    done.
Qed.

Lemma validate_operations_acceptable tasks operations i :
  Forall (acceptable tasks) operations →
  validate_operations tasks i operations = inr tt.
Proof.
  intros Hall. revert i.
  induction Hall as [| operation rest Hacc _ IH]; intros i; simpl; [done |].
  rewrite (validate_operation_acceptable _ _ _ Hacc). simpl. apply IH.
Qed.

(** An operation whose file is outside the non-empty allow-list of the task
    its id resolves to is rejected, whatever its position. *)
Lemma validate_operation_file_mismatch tasks i operation task_id task_def :
  taskId operation = Some task_id →
  task_id ≠ EmptyString →
  find_task_def tasks task_id = Some task_def →
  TaskDef.files task_def ≠ [] →
  file operation ∉ TaskDef.files task_def →
  ∃ msg, validate_operation tasks i operation = inl (ValueError msg).
Proof.
  intros Hid Hne Hfind Hfiles Hnotin. unfold validate_operation.
  rewrite Hid. simpl. destruct task_id as [| c r]; [done |]. simpl.
  simpl in Hfind. rewrite Hfind.
  rewrite (bool_decide_eq_true_2 _ Hfiles).
  rewrite (bool_decide_eq_false_2 _ Hnotin). simpl. eauto.
Qed.

Lemma validate_operation_raises_ValueError tasks i operation e :
  validate_operation tasks i operation = inl e → ∃ msg, e = ValueError msg.
Proof.
  unfold validate_operation. intros H.
  repeat (match type of H with
          | context [if ?b then _ else _] => destruct b
          | context [match ?x with _ => _ end] => destruct x
          end; try discriminate; try (injection H as <-; eauto)).
Qed.

Lemma validate_operations_rejects tasks operations i operation :
  operation ∈ operations →
  (∀ j, ∃ msg, validate_operation tasks j operation = inl (ValueError msg)) →
  ∃ msg, validate_operations tasks i operations = inl (ValueError msg).
Proof.
  intros Hin Hbad. revert i.
  induction operations as [| o rest IH]; intros i.
  { by apply elem_of_nil in Hin. }
  simpl. destruct (validate_operation tasks i o) as [e | u] eqn:Ho.
  - apply validate_operation_raises_ValueError in Ho as [msg ->].
    simpl. eauto.
  - apply elem_of_cons in Hin as [-> | Hin].
    + destruct (Hbad i) as [msg Hmsg]. congruence.
    + simpl. by apply IH.
Qed.

End Validation.

(** ** Validation inside [apply_batch] *)

Section BatchValidation.

Variable self : PatchManager.
Variable host : Host.

Lemma validate_no_schema fs batch :
  fs !! schema_path self = None →
  _validate_against_task_schema self host fs batch = inr tt.
Proof. intros H. unfold _validate_against_task_schema. by rewrite H. Qed.

Lemma apply_batch_no_schema w batch :
  fs w !! schema_path self = None →
  apply_batch self host w batch = run_batch self host w batch.
Proof.
  intros H. unfold apply_batch. by rewrite (validate_no_schema _ _ H).
Qed.

(** C6: with a schema whose task [task_id] has a non-empty allow-list of
    files, a batch containing an operation for that task on a file outside
    the list fails validation with a [ValueError], and [apply_batch] raises
    it leaving the world (every file, and the requests sent) as it was. *)
Theorem C6_allow_list_mismatch_aborts_batch
    w batch text tasks operation task_id task_def :
  fs w !! schema_path self = Some text →
  json_load host (read_text text) = Some tasks →
  operation ∈ patches batch →
  taskId operation = Some task_id →
  task_id ≠ EmptyString →
  find_task_def tasks task_id = Some task_def →
  TaskDef.files task_def ≠ [] →
  file operation ∉ TaskDef.files task_def →
  ∃ msg,
    _validate_against_task_schema self host (fs w) batch
      = inl (ValueError msg)
    ∧ apply_batch self host w batch = (inl (ValueError msg), w).
Proof.
  intros Hschema Hload Hin Hid Hne Hfind Hfiles Hnotin.
  destruct (validate_operations_rejects tasks (patches batch) 0 operation Hin)
    as [msg Hmsg].
  { intros j. by eapply validate_operation_file_mismatch. }
  exists ("Task schema validation failed: " +:+ msg).
  assert (_validate_against_task_schema self host (fs w) batch
          = inl (ValueError ("Task schema validation failed: " +:+ msg)))
    as Hval.
  { unfold _validate_against_task_schema. by rewrite Hschema, Hload, Hmsg. }
  split; [exact Hval |]. unfold apply_batch. by rewrite Hval.
Qed.

(** C8: with a schema present, a batch in which every operation either has
    no task id, or names a task the schema does not list, or is allowed by
    the task it names, passes validation; in particular an unknown task id
    never makes validation fail. *)
Theorem C8_unknown_task_id_is_not_a_failure w batch text tasks :
  fs w !! schema_path self = Some text →
  json_load host (read_text text) = Some tasks →
  Forall (acceptable tasks) (patches batch) →
  _validate_against_task_schema self host (fs w) batch = inr tt
  ∧ apply_batch self host w batch = run_batch self host w batch.
Proof.
  intros Hschema Hload Hall.
  assert (_validate_against_task_schema self host (fs w) batch = inr tt)
    as Hval.
  { unfold _validate_against_task_schema.
    by rewrite Hschema, Hload, (validate_operations_acceptable _ _ _ Hall). }
  split; [exact Hval |]. unfold apply_batch. by rewrite Hval.
Qed.

(** C10: when the schema file exists and its text is not valid JSON,
    validation succeeds and [apply_batch] is the unvalidated run of the
    batch, exactly as it is on any world without a schema file. *)
Theorem C10_invalid_schema_json_is_ignored w batch text :
  fs w !! schema_path self = Some text →
  json_load host (read_text text) = None →
  _validate_against_task_schema self host (fs w) batch = inr tt
  ∧ apply_batch self host w batch = run_batch self host w batch
  ∧ ∀ w0, fs w0 !! schema_path self = None →
          apply_batch self host w0 batch = run_batch self host w0 batch.
Proof.
  intros Hschema Hload.
  assert (_validate_against_task_schema self host (fs w) batch = inr tt)
    as Hval.
  { unfold _validate_against_task_schema. by rewrite Hschema, Hload. }
  split; [exact Hval |]. split.
  - unfold apply_batch. by rewrite Hval.
  - intros w0. apply apply_batch_no_schema.
Qed.

End BatchValidation.

Lemma C6_witness :
  ∃ msg,
    apply_batch manager schema_host (world_of tree_with_schema)
      (batch_of [append_to "a.py" ("x = 2" +:+ nl) (Some "1");
                 append_to "b.py" ("y = 2" +:+ nl) (Some "1")])
    = (inl (ValueError msg), world_of tree_with_schema).
Proof.
  destruct (C6_allow_list_mismatch_aborts_batch manager schema_host
              (world_of tree_with_schema)
              (batch_of [append_to "a.py" ("x = 2" +:+ nl) (Some "1");
                         append_to "b.py" ("y = 2" +:+ nl) (Some "1")])
              schema_text schema_tasks
              (append_to "b.py" ("y = 2" +:+ nl) (Some "1")) "1"
              {| TaskDef.id := "1"; TaskDef.files := ["a.py"];
                 TaskDef.allowedOperations := [] |})
    as (msg & _ & Hraise); try by_evaluation.
  exists msg. exact Hraise.
Defined.

Lemma C8_witness :
  _validate_against_task_schema manager schema_host tree_with_schema
    (batch_of [append_to "a.py" ("x = 2" +:+ nl) (Some "1");
               append_to "b.py" ("y = 2" +:+ nl) (Some "77");
               append_to "b.py" ("y = 3" +:+ nl) None])
  = inr tt.
Proof.
  refine (proj1 (C8_unknown_task_id_is_not_a_failure manager schema_host
                   (world_of tree_with_schema) _ schema_text schema_tasks
                   _ _ _)); try by_evaluation.
  apply Forall_cons_2; [| apply Forall_cons_2; [| apply Forall_cons_2;
                                                    [| apply Forall_nil_2]]].
  - right; right. eexists. split; [by_evaluation |]. split.
    + right. by_evaluation.
    + left. reflexivity.
  - right; left. by_evaluation.
  - left. reflexivity.
Defined.

Lemma C10_witness :
  apply_batch manager plain_host (world_of tree_with_broken_schema)
    (batch_of [append_to "a.py" ("x = 2" +:+ nl) (Some "1")])
  = run_batch manager plain_host (world_of tree_with_broken_schema)
      (batch_of [append_to "a.py" ("x = 2" +:+ nl) (Some "1")]).
Proof.
  refine (proj1 (proj2 (C10_invalid_schema_json_is_ignored manager plain_host
                          (world_of tree_with_broken_schema) _ "{not json"
                          _ _))); by_evaluation.
Defined.

(** ** One operation *)

Section Operation.

Variable self : PatchManager.
Variable host : Host.

Lemma write_file_dry_run fs file_path lines :
  dry_run self = true → _write_file self fs file_path lines = fs.
Proof. intros H. unfold _write_file. by rewrite H. Qed.

(** Every editing method returns the diff between the lines it read and the
    lines it built. *)
Lemma dispatch_diff fs file_path operation content modified_lines d :
  dispatch fs file_path operation content = inr (modified_lines, d) →
  ∃ lines,
    _read_file fs file_path = inr lines
    ∧ d = _generate_unified_diff file_path lines modified_lines.
Proof.
  unfold dispatch, replace_block, insert_before, insert_after, append, prepend.
  destruct (_read_file fs file_path) as [e | lines] eqn:Hread; simpl;
    intros H;
    repeat (match type of H with
            | context [if ?b then _ else _] => destruct b
            | context [match ?x with _ => _ end] => destruct x
            end; simpl in H; try discriminate);
    injection H as <- <-; eauto.
Qed.

(** The shape of what [apply_operation] returns when it returns. *)
Lemma apply_operation_returns fs operation r fs' :
  apply_operation self host fs operation = (inr r, fs') →
  let file_path := path_join (project_root self) (file operation) in
  ∃ content,
    _get_content self fs operation = inr content
    ∧ ((∃ modified_lines d,
          dispatch fs file_path operation content = inr (modified_lines, d)
          ∧ fs' = _write_file self fs file_path modified_lines
          ∧ OpResult.success r = true
          ∧ OpResult.diff r = Some d
          ∧ OpResult.ts_check_ok r
            = if bool_decide (suffix file_path ∈ [".ts"; ".tsx"])
              then _check_typescript host fs' file_path else None)
       ∨ (∃ e,
            dispatch fs file_path operation content = inl e
            ∧ fs' = fs
            ∧ OpResult.success r = false
            ∧ OpResult.error r = Some (str_exn e)
            ∧ OpResult.ts_check_ok r = Some false)).
Proof.
  intros H file_path. unfold apply_operation in H. fold file_path in H.
  destruct (negb (exists_ fs file_path)); [discriminate |].
  destruct (_get_content self fs operation) as [e | content];
    [discriminate |].
  exists content. split; [done |].
  destruct (dispatch fs file_path operation content)
    as [e | [modified_lines d]].
  - right. exists e. injection H as <- <-. done.
  - left. exists modified_lines, d. injection H as <- <-. done.
Qed.

Lemma apply_operation_raises_fs fs operation e fs' :
  apply_operation self host fs operation = (inl e, fs') → fs' = fs.
Proof.
  unfold apply_operation. intros H.
  destruct (negb (exists_ fs _)); [by injection H as _ <- |].
  destruct (_get_content self fs operation) as [e' | content];
    [by injection H as _ <- |].
  destruct (dispatch fs _ operation content) as [e' | [m d]]; discriminate.
Qed.

Lemma apply_operation_dry_run fs operation out fs' :
  dry_run self = true →
  apply_operation self host fs operation = (out, fs') → fs' = fs.
Proof.
  intros Hdry H. destruct out as [e | r].
  - by eapply apply_operation_raises_fs.
  - apply apply_operation_returns in H as (content & _ & H).
    destruct H as [(m & d & _ & -> & _) | (e & _ & -> & _)]; [| done].
    by apply write_file_dry_run.
Qed.

Lemma apply_operation_success_diff fs operation r fs' :
  apply_operation self host fs operation = (inr r, fs') →
  OpResult.success r = true →
  ∃ d, OpResult.diff r = Some d ∧ computed_diff self fs operation d.
Proof.
  intros H Hok. apply apply_operation_returns in H as (content & Hc & H).
  destruct H as [(m & d & Hd & _ & _ & Hdiff & _) | (e & _ & _ & Hf & _)];
    [| congruence].
  exists d. split; [done |].
  destruct (dispatch_diff _ _ _ _ _ _ Hd) as (lines & Hread & ->).
  by exists content, lines, m.
Qed.

(** [apply_operation] raises exactly when the target is missing or the
    content cannot be resolved: these two checks stand before the [try]. *)
Lemma apply_operation_raises_iff fs operation :
  (∃ e, fst (apply_operation self host fs operation) = inl e)
  ↔ exists_ fs (path_join (project_root self) (file operation)) = false
    ∨ ∃ e, _get_content self fs operation = inl e.
Proof.
  unfold apply_operation.
  destruct (exists_ fs _) eqn:Hex; simpl.
  - destruct (_get_content self fs operation) as [e | content]; simpl.
    + split; eauto.
    + destruct (dispatch fs _ operation content) as [e | [m d]]; simpl;
        (split; [by intros [? ?] | by intros [? | [? ?]]]).
  - split; eauto.
Qed.

(** Whether the content of an operation can be resolved depends only on
    which files exist. *)
Lemma get_content_resolves fs operation :
  (∃ content, _get_content self fs operation = inr content)
  ↔ truthy_opt (block operation) = true
    ∨ truthy_opt (blockFile operation) = true
      ∧ exists_ fs (path_join (project_root self)
                      (default EmptyString (blockFile operation))) = true.
Proof.
  unfold _get_content, exists_.
  destruct (truthy_opt (block operation)); [split; eauto |].
  destruct (truthy_opt (blockFile operation)).
  - destruct (fs !! _) as [text |] eqn:Hf.
    + rewrite bool_decide_eq_true_2 by eauto. split; eauto.
    + rewrite bool_decide_eq_false_2 by (by intros [? ?]).
      split; [by intros [? ?] | by intros [? | [_ ?]]].
  - split; [by intros [? ?] | by intros [? | [? _]]].
Qed.

(** An operation creates and deletes no file. *)
Lemma apply_operation_exists fs operation out fs' path :
  apply_operation self host fs operation = (out, fs') →
  exists_ fs' path = exists_ fs path.
Proof.
  intros H. destruct out as [e | r].
  - by rewrite (apply_operation_raises_fs _ _ _ _ H).
  - pose proof H as Hex. unfold apply_operation in Hex.
    destruct (exists_ fs _) eqn:Htarget; [| discriminate]. clear Hex.
    apply apply_operation_returns in H as (content & _ & H).
    destruct H as [(m & d & _ & -> & _) | (e & _ & -> & _)]; [| done].
    unfold _write_file. destruct (dry_run self); [done |].
    unfold exists_ in *. apply bool_decide_eq_true_1 in Htarget.
    apply bool_decide_ext.
    destruct (decide (path_join (project_root self) (file operation) = path))
      as [<- | Hne].
    + rewrite lookup_insert_eq. split; eauto.
    + by rewrite lookup_insert_ne.
Qed.

Lemma runnable_returns fs operation :
  runnable self fs operation →
  ∃ r, fst (apply_operation self host fs operation) = inr r.
Proof.
  intros [Htarget Hcontent].
  destruct (apply_operation self host fs operation) as [[e | r] fs'] eqn:H;
    [| by eexists].
  assert (∃ e, fst (apply_operation self host fs operation) = inl e) as Hr
    by (rewrite H; eauto).
  apply apply_operation_raises_iff in Hr as [Hr | [e' Hr]]; [congruence |].
  apply get_content_resolves in Hcontent as [content Hc]. congruence.
Qed.

Lemma runnable_preserved fs operation out fs' other :
  apply_operation self host fs operation = (out, fs') →
  runnable self fs other → runnable self fs' other.
Proof.
  intros H. unfold runnable.
  by rewrite !(apply_operation_exists _ _ _ _ _ H).
Qed.

(** C4 (as amended): for a successful operation on a [.ts] or [.tsx] file,
    the recorded type-check outcome is [None] (not applicable) when the
    checker executable is absent, and [False] (fail) when the checker
    times out. *)
Theorem C4_checker_absent_is_none_timeout_is_fail fs operation r fs' :
  apply_operation self host fs operation = (inr r, fs') →
  OpResult.success r = true →
  suffix (path_join (project_root self) (file operation))
    ∈ [".ts"; ".tsx"] →
  (run_tsc host (path_join (project_root self) (file operation)) fs'
     = ExecutableNotFound →
   OpResult.ts_check_ok r = None)
  ∧ (run_tsc host (path_join (project_root self) (file operation)) fs'
       = TimeoutExpired →
     OpResult.ts_check_ok r = Some false).
Proof.
  intros H Hok Hts. apply apply_operation_returns in H as (content & _ & H).
  destruct H as [(m & d & _ & _ & _ & _ & Hcheck) | (e & _ & _ & Hf & _)];
    [| congruence].
  rewrite (bool_decide_eq_true_2 _ Hts) in Hcheck.
  unfold _check_typescript in Hcheck.
  split; intros Hrun; by rewrite Hrun in Hcheck.
Qed.

End Operation.

(** C4, counterexample to the claim as stated: a valid append to [app.ts]
    succeeds on a host whose checker times out, and the recorded type-check
    outcome is [False], the value recorded for a failed check, not [None]. *)
Lemma C4_timeout_recorded_as_fail :
  ∃ r,
    fst (apply_operation manager slow_checker_host tree
           (append_to "app.ts" ("export const other = 2;" +:+ nl) None))
    = inr r
    ∧ OpResult.success r = true
    ∧ run_tsc slow_checker_host "/proj/app.ts"
        (snd (apply_operation manager slow_checker_host tree
                (append_to "app.ts" ("export const other = 2;" +:+ nl) None)))
      = TimeoutExpired
    ∧ OpResult.ts_check_ok r = Some false
    ∧ OpResult.ts_check_ok r ≠ None.
Proof.
  exists {| OpResult.success := true;
            OpResult.file := "app.ts";
            OpResult.op := "append";
            OpResult.diff :=
              Some (join nl ["--- /proj/app.ts"; "+++ /proj/app.ts";
                             "@@ -1 +1,3 @@"; " const value = 1;";
                             EmptyString; "+export const other = 2;";
                             EmptyString; "+"]);
            OpResult.error := None;
            OpResult.ts_check_ok := Some false |}.
  split; [vm_refl |]. repeat split; discriminate.
Qed.

Lemma C4_witness :
  ∃ r,
    fst (apply_operation manager plain_host tree
           (append_to "app.ts" ("export const other = 2;" +:+ nl) None))
    = inr r
    ∧ OpResult.ts_check_ok r = None.
Proof.
  set (operation := append_to "app.ts" ("export const other = 2;" +:+ nl) None).
  set (r := {| OpResult.success := true;
               OpResult.file := "app.ts";
               OpResult.op := "append";
               OpResult.diff :=
                 Some (join nl ["--- /proj/app.ts"; "+++ /proj/app.ts";
                                "@@ -1 +1,3 @@"; " const value = 1;";
                                EmptyString; "+export const other = 2;";
                                EmptyString; "+"]);
               OpResult.error := None;
               OpResult.ts_check_ok := None |}).
  assert (apply_operation manager plain_host tree operation
          = (inr r, snd (apply_operation manager plain_host tree operation)))
    as H by vm_refl.
  exists r. split; [by rewrite H |].
  refine (proj1 (C4_checker_absent_is_none_timeout_is_fail manager plain_host
                   tree operation r _ H eq_refl _) eq_refl).
  by_evaluation.
Defined.

(** ** The batch loop *)

Section Loop.

Variable self : PatchManager.
Variable host : Host.

(** What a notification without a diff does to the world. *)
Lemma notify_without_diff w patch_id file op status task_id ts_check_ok meta :
  snd (notify_orchestrator self host w patch_id file op status task_id
         ts_check_ok None (Some meta))
  = {| fs := fs w;
       posted :=
         posted w
         ++ (if requests_available host
             then [((events_url self),
                    {| Event.patch_id := patch_id;
                       Event.file := file;
                       Event.op := op;
                       Event.status := status;
                       Event.task_id := task_id;
                       Event.ts_check_ok := ts_check_ok;
                       Event.meta := meta;
                       Event.diff_path := None |})]
             else []) |}.
Proof.
  unfold notify_orchestrator. destruct (requests_available host); simpl.
  - done.
  - rewrite app_nil_r. by destruct w.
Qed.

(** One step of the loop, for an operation that returned a result. *)
Lemma apply_operations_step patch_id n i operation rest w results result fs' :
  apply_operation self host (fs w) operation = (inr result, fs') →
  apply_operations self host patch_id n i (operation :: rest) w results
  = apply_operations self host patch_id n (S i) rest
      {| fs := fs';
         posted :=
           posted w
           ++ (if OpResult.success result && requests_available host
               then [((events_url self),
                      applied_event patch_id n i operation result)]
               else []) |}
      (results ++ [result]).
Proof.
  intros Hop. simpl. rewrite Hop.
  destruct (OpResult.success result); simpl.
  - by rewrite notify_without_diff.
  - by rewrite app_nil_r.
Qed.

Lemma apply_operations_raise patch_id n i operation rest w results e fs' :
  apply_operation self host (fs w) operation = (inl e, fs') →
  apply_operations self host patch_id n i (operation :: rest) w results
  = (inl e, {| fs := fs'; posted := posted w |}).
Proof. intros Hop. simpl. by rewrite Hop. Qed.

(** The requests sent by a loop that runs to its end. *)
Lemma apply_operations_posted patch_id n operations :
  ∀ i w results0 results w',
    apply_operations self host patch_id n i operations w results0
      = (inr results, w') →
    ∃ new,
      results = results0 ++ new
      ∧ length new = length operations
      ∧ posted w'
        = posted w
          ++ (if requests_available host
              then map (pair (events_url self))
                       (applied_events patch_id n i operations new)
              else []).
Proof.
  induction operations as [| operation rest IH];
    intros i w results0 results w' H.
  - simpl in H. injection H as <- <-. exists [].
    destruct (requests_available host); simpl; by rewrite !app_nil_r.
  - destruct (apply_operation self host (fs w) operation)
      as [[e | result] fs'] eqn:Hop.
    + by rewrite (apply_operations_raise _ _ _ _ _ _ _ _ _ Hop) in H.
    + rewrite (apply_operations_step _ _ _ _ _ _ _ _ _ Hop) in H.
      apply IH in H as (new & -> & Hlen & Hposted).
      exists (result :: new). split; [by rewrite <- app_assoc |].
      split; [simpl; by rewrite Hlen |].
      rewrite Hposted. simpl. rewrite <- app_assoc. f_equal.
      destruct (OpResult.success result), (requests_available host);
        simpl; done.
Qed.

Lemma applied_events_length patch_id n operations :
  ∀ i results,
    length results = length operations →
    length (applied_events patch_id n i operations results)
    = count_true (map OpResult.success results).
Proof.
  unfold count_true.
  induction operations as [| operation rest IH]; intros i [| r results] Hlen;
    try done.
  simpl in *. rewrite length_app, (IH (S i) results) by lia.
  destruct (OpResult.success r) eqn:Hr.
  - rewrite filter_cons_True by done. done.
  - rewrite filter_cons_False by (by intros ?). done.
Qed.

(** What [apply_batch] does send: when it returns its result, the requests
    it has sent to the orchestrator's events endpoint are exactly one
    [applied] event per operation whose result is a success, in order, each
    carrying the batch id, the file, the operation kind and the status, and
    none for an operation whose result is a failure; their number is the
    [succeeded] count.  (Nothing is sent when the HTTP client library
    cannot be imported.) *)
Theorem one_event_per_successful_operation w batch res w' :
  apply_batch self host w batch = (inr res, w') →
  length (BatchResult.operations res) = length (patches batch)
  ∧ posted w'
    = posted w
      ++ (if requests_available host
          then map (pair (events_url self))
                 (applied_events (BatchResult.patch_id res)
                    (length (patches batch)) 0 (patches batch)
                    (BatchResult.operations res))
          else [])
  ∧ length (applied_events (BatchResult.patch_id res)
              (length (patches batch)) 0 (patches batch)
              (BatchResult.operations res))
    = BatchResult.succeeded res.
Proof.
  unfold apply_batch, run_batch. intros H.
  destruct (_validate_against_task_schema self host (fs w) batch);
    [discriminate |].
  destruct (apply_operations _ _ _ _ _ _ _ _) as [[e | results] w1] eqn:Hloop;
    [discriminate |].
  injection H as <- <-. simpl.
  apply apply_operations_posted in Hloop as (new & Hres & Hlen & Hposted).
  simpl in Hres. subst new.
  split; [done |]. split; [done |].
  by apply applied_events_length.
Qed.

(** Errors raised inside the [try] of [apply_operation] do not stop the
    loop: when every operation is runnable, the loop returns one result per
    operation. *)
Lemma apply_operations_returns patch_id n operations :
  ∀ i w results0,
    Forall (runnable self (fs w)) operations →
    ∃ new w',
      apply_operations self host patch_id n i operations w results0
        = (inr (results0 ++ new), w')
      ∧ length new = length operations.
Proof.
  induction operations as [| operation rest IH]; intros i w results0 Hall.
  - exists [], w. by rewrite app_nil_r.
  - apply Forall_cons in Hall as [Hop Hrest].
    destruct (runnable_returns self host _ _ Hop) as [r Hr].
    destruct (apply_operation self host (fs w) operation)
      as [out fs'] eqn:Happ.
    simpl in Hr. subst out.
    rewrite (apply_operations_step _ _ _ _ _ _ _ _ _ Happ).
    edestruct IH as (new & w' & -> & Hlen).
    { simpl. eapply Forall_impl; [exact Hrest |].
      intros other. by eapply runnable_preserved. }
    exists (r :: new), w'. rewrite <- app_assoc. simpl. by rewrite Hlen.
Qed.

Lemma run_batch_returns w batch :
  Forall (runnable self (fs w)) (patches batch) →
  ∃ res w',
    run_batch self host w batch = (inr res, w')
    ∧ length (BatchResult.operations res) = length (patches batch).
Proof.
  intros Hall. unfold run_batch.
  edestruct apply_operations_returns as (new & w' & -> & Hlen); [done |].
  eexists _, _. split; [done |]. done.
Qed.

(** In dry-run mode the loop leaves the file tree alone, and every
    successful result carries the diff computed for its operation. *)
Lemma apply_operations_dry_run patch_id n operations :
  dry_run self = true →
  ∀ i w results0 out w',
    apply_operations self host patch_id n i operations w results0
      = (out, w') →
    fs w' = fs w
    ∧ ∀ results, out = inr results →
        ∃ new,
          results = results0 ++ new
          ∧ Forall2 (λ operation r,
                       OpResult.success r = true →
                       ∃ d, OpResult.diff r = Some d
                            ∧ computed_diff self (fs w) operation d)
                    operations new.
Proof.
  intros Hdry.
  induction operations as [| operation rest IH]; intros i w results0 out w' H.
  - simpl in H. injection H as <- <-. split; [done |].
    intros results [= <-]. exists []. by rewrite app_nil_r.
  - destruct (apply_operation self host (fs w) operation)
      as [[e | result] fs'] eqn:Hop.
    + rewrite (apply_operations_raise _ _ _ _ _ _ _ _ _ Hop) in H.
      injection H as <- <-. simpl.
      split; [by eapply apply_operation_dry_run |]. by intros results.
    + rewrite (apply_operations_step _ _ _ _ _ _ _ _ _ Hop) in H.
      pose proof (apply_operation_dry_run _ _ _ _ _ _ Hdry Hop) as ->.
      apply IH in H as [Hfs Hres]. simpl in Hfs, Hres.
      split; [done |].
      intros results ->. destruct (Hres _ eq_refl) as (new & -> & Hall).
      exists (result :: new). split; [by rewrite <- app_assoc |].
      constructor; [| done].
      intros Hok. by eapply apply_operation_success_diff.
Qed.

(** C7: in dry-run mode, applying any batch leaves every file of the tree
    with exactly the content it had, whether [apply_batch] returns or
    raises; and when it returns, the result of every successful operation
    contains the unified diff computed between the file's lines and the
    lines the edit builds from them. *)
Theorem C7_dry_run_leaves_files_unchanged w batch out w' :
  dry_run self = true →
  apply_batch self host w batch = (out, w') →
  fs w' = fs w
  ∧ ∀ res, out = inr res →
      Forall2 (λ operation r,
                 OpResult.success r = true →
                 ∃ d, OpResult.diff r = Some d
                      ∧ computed_diff self (fs w) operation d)
              (patches batch) (BatchResult.operations res).
Proof.
  intros Hdry. unfold apply_batch, run_batch. intros H.
  destruct (_validate_against_task_schema self host (fs w) batch).
  { injection H as <- <-. split; [done |]. by intros res. }
  destruct (apply_operations _ _ _ _ _ _ _ _) as [[e | results] w1] eqn:Hloop.
  - injection H as <- <-.
    apply (apply_operations_dry_run _ _ _ Hdry) in Hloop as [Hfs _].
    split; [done |]. by intros res.
  - injection H as <- <-.
    apply (apply_operations_dry_run _ _ _ Hdry) in Hloop as [Hfs Hres].
    split; [done |]. intros res [= <-]. simpl.
    destruct (Hres _ eq_refl) as (new & Hnew & Hall). simpl in Hnew.
    by subst new.
Qed.

End Loop.

Lemma mixed_batch_returns :
  apply_batch manager plain_host (world_of tree) mixed_batch
  = (inr mixed_batch_result,
     snd (apply_batch manager plain_host (world_of tree) mixed_batch)).
Proof. vm_refl. Qed.

(** C5, evaluated where the claim fails.  The batch has two operations
    that both complete, the first out of range (a failure) and the second
    valid (a success).  A single event is sent, and it is the second
    operation's: the failed operation is not reported, although the
    comment above the call says [Notify orchestrator for each operation]
    and [notify_orchestrator] documents the status [failed]. *)
Lemma C5_failed_operation_sends_no_event :
  ∃ res,
    fst (apply_batch manager plain_host (world_of tree)
           (batch_of [replace_in "greet.py" 5 5 "x";
                      append_to "a.txt" "zz" None]))
    = inr res
    ∧ map OpResult.success (BatchResult.operations res) = [false; true]
    ∧ BatchResult.failed res = 1%nat
    ∧ posted (snd (apply_batch manager plain_host (world_of tree)
                     (batch_of [replace_in "greet.py" 5 5 "x";
                                append_to "a.txt" "zz" None])))
      = [("http://localhost:8787/api/patches/events",
          {| Event.patch_id := "order-1";
             Event.file := "a.txt";
             Event.op := "append";
             Event.status := "applied";
             Event.task_id := None;
             Event.ts_check_ok := None;
             Event.meta := [("operation_index", 1); ("total_operations", 2)];
             Event.diff_path := None |})].
Proof.
  exists mixed_batch_result. fold mixed_batch.
  split; [by rewrite mixed_batch_returns |].
  split; [done |]. split; [done |]. vm_refl.
Qed.

Lemma one_event_per_successful_operation_witness :
  posted (snd (apply_batch manager plain_host (world_of tree) mixed_batch))
  = posted (world_of tree)
    ++ (if requests_available plain_host
        then map (pair (events_url manager))
               (applied_events (BatchResult.patch_id mixed_batch_result)
                  (length (patches mixed_batch)) 0 (patches mixed_batch)
                  (BatchResult.operations mixed_batch_result))
        else []).
Proof.
  exact (proj1 (proj2 (one_event_per_successful_operation manager plain_host
                         (world_of tree) mixed_batch mixed_batch_result _
                         mixed_batch_returns))).
Defined.

Lemma C7_witness :
  fs (snd (apply_batch dry_manager plain_host (world_of tree)
             (batch_of [replace_in "greet.py" 2 2
                          ("    return 'hello'" +:+ nl);
                        append_to "a.txt" "zz" None])))
  = tree.
Proof.
  exact (proj1 (C7_dry_run_leaves_files_unchanged dry_manager plain_host
                  (world_of tree)
                  (batch_of [replace_in "greet.py" 2 2
                               ("    return 'hello'" +:+ nl);
                             append_to "a.txt" "zz" None])
                  _ _ eq_refl (surjective_pairing _))).
Defined.

(** ** Behaviour at particular inputs *)

(** C1, evaluated where the claim fails.  The batch has two operations on
    two files; the second is valid.  When the first names a file that does
    not exist, [apply_batch] raises [FileNotFoundError]: no result is
    returned, the second operation is not run and its file is untouched.
    The same happens, with a [ValueError], when the first operation has
    neither inline content nor a block file. *)
Theorem C1_error_before_try_halts_batch :
  apply_batch manager plain_host (world_of tree)
    (batch_of [append_to "missing.py" "x" None;
               append_to "a.txt" "zz" None])
  = (inl (FileNotFoundError "File not found: /proj/missing.py"),
     world_of tree)
  ∧ apply_batch manager plain_host (world_of tree)
      (batch_of [append_nothing_to "greet.py";
                 append_to "a.txt" "zz" None])
    = (inl (ValueError "Either 'block' or 'blockFile' must be provided"),
       world_of tree)
  ∧ snd (apply_operation manager plain_host tree
           (append_to "a.txt" "zz" None)) !! "/proj/a.txt"
    = Some ("a" +:+ nl +:+ "zz" +:+ nl).
Proof. repeat split; vm_refl. Qed.

(** C2, evaluated where the claim fails.  The file has 2 lines, the block
    replaces line 2 by a content of one line ending in a newline; the
    buffer produced has 3 lines, the last a blank line that is not in the
    content, where the claim gives 2 - (2 - 2 + 1) + 1 = 2. *)
Theorem C2_replace_block_adds_blank_line :
  fst <$> replace_block tree "/proj/greet.py" 2 2
            ("    return 'hello'" +:+ nl) true
  = inr ["def greet():" +:+ nl; "    return 'hello'" +:+ nl; nl]
  ∧ length (readlines greet_text) = 2%nat
  ∧ line_count ("    return 'hello'" +:+ nl) = 1%nat.
Proof. repeat split; vm_refl. Qed.

(** C3, evaluated where the claim fails.  On a file of 2 lines,
    [replace_block] called with start 2 and end 1 raises nothing: it
    returns a buffer in which the content has been inserted before line 2
    and nothing replaced.  With start 2 and end 0 it raises nothing either,
    and the buffer returned holds line 1 twice. *)
Theorem C3_reversed_range_is_accepted :
  fst <$> replace_block tree "/proj/greet.py" 2 1 "x" true
  = inr ["def greet():" +:+ nl; "    x"; "    return 'hi'" +:+ nl]
  ∧ fst <$> replace_block tree "/proj/greet.py" 2 0 "x" true
    = inr ["def greet():" +:+ nl; "    x"; "def greet():" +:+ nl;
           "    return 'hi'" +:+ nl].
Proof. split; vm_refl. Qed.

(** A diff returned by the manager applies when it has a single body
    line: inserting [a] into an empty file. *)
Lemma single_line_diff_applies :
  OpResult.diff <$> fst (apply_operation manager plain_host tree
                           (insert_before_in "empty.txt" 1 "a"))
  = inr (Some (join nl ["--- /proj/empty.txt"; "+++ /proj/empty.txt";
                        "@@ -0,0 +1 @@"; "+a"; EmptyString]))
  ∧ UnifiedDiff.apply
      (join nl ["--- /proj/empty.txt"; "+++ /proj/empty.txt";
                "@@ -0,0 +1 @@"; "+a"; EmptyString])
      EmptyString
    = Some ("a" +:+ nl)
  ∧ snd (apply_operation manager plain_host tree
           (insert_before_in "empty.txt" 1 "a")) !! "/proj/empty.txt"
    = Some ("a" +:+ nl).
Proof. repeat split; vm_refl. Qed.

(** C9, evaluated where the claim fails.  Inserting the line [b] before
    line 2 of a file holding the two lines [a], [z] succeeds and writes the
    three lines [a], [b], [z].  The diff text returned has a blank line
    after each of its body lines [ a] and [+b], inside a hunk announced as 2
    old and 3 new lines; applying it to the previous content yields
    nothing.  The same two buffers diffed with newline-terminated output
    give a text that applies and yields the new content. *)
Theorem C9_returned_diff_does_not_apply :
  ∃ d,
    fst (apply_operation manager plain_host tree
           (insert_before_in "az.txt" 2 "b"))
    = inr {| OpResult.success := true;
             OpResult.file := "az.txt";
             OpResult.op := "insert-before";
             OpResult.diff := Some d;
             OpResult.error := None;
             OpResult.ts_check_ok := None |}
    ∧ d = join nl ["--- /proj/az.txt"; "+++ /proj/az.txt"; "@@ -1,2 +1,3 @@";
                   " a"; EmptyString; "+b"; EmptyString; " z"; EmptyString]
    ∧ tree !! "/proj/az.txt" = Some ("a" +:+ nl +:+ "z" +:+ nl)
    ∧ snd (apply_operation manager plain_host tree
             (insert_before_in "az.txt" 2 "b")) !! "/proj/az.txt"
      = Some ("a" +:+ nl +:+ "b" +:+ nl +:+ "z" +:+ nl)
    ∧ UnifiedDiff.apply d ("a" +:+ nl +:+ "z" +:+ nl) = None
    ∧ UnifiedDiff.apply
        (writelines
           (difflib.unified_diff ["a" +:+ nl; "z" +:+ nl]
              ["a" +:+ nl; "b" +:+ nl; "z" +:+ nl]
              "/proj/az.txt" "/proj/az.txt" nl))
        ("a" +:+ nl +:+ "z" +:+ nl)
      = Some ("a" +:+ nl +:+ "b" +:+ nl +:+ "z" +:+ nl).
Proof.
  exists (join nl ["--- /proj/az.txt"; "+++ /proj/az.txt"; "@@ -1,2 +1,3 @@";
                   " a"; EmptyString; "+b"; EmptyString; " z"; EmptyString]).
  repeat split; vm_refl.
Qed.

(** * Further properties of the module *)

(** ** Text lemmas *)

Lemma string_app_cons c (r s : string) : String c r +:+ s = String c (r +:+ s).
Proof. reflexivity. Qed.

Lemma string_app_nil_l (s : string) : EmptyString +:+ s = s.
Proof. reflexivity. Qed.

Lemma string_app_nil_r (s : string) : s +:+ EmptyString = s.
Proof.
  induction s as [| c r IH]; [done |]. by rewrite string_app_cons, IH.
Qed.

Lemma string_app_assoc (s1 s2 s3 : string) :
  (s1 +:+ s2) +:+ s3 = s1 +:+ (s2 +:+ s3).
Proof.
  induction s1 as [| c r IH]; [done |]. by rewrite !string_app_cons, IH.
Qed.

Lemma writelines_cons x l : writelines (x :: l) = x +:+ writelines l.
Proof. reflexivity. Qed.

Lemma writelines_app l1 l2 :
  writelines (l1 ++ l2) = writelines l1 +:+ writelines l2.
Proof.
  induction l1 as [| x l IH]; [done |].
  rewrite <- app_comm_cons, !writelines_cons, IH.
  symmetry. apply string_app_assoc.
Qed.

(** Writing back the lines read gives the text read. *)
Lemma writelines_split_keepends s : writelines (split_keepends s) = s.
Proof.
  induction s as [| c r IH]; [done |]. simpl.
  destruct (Ascii.eqb_spec c LF) as [-> | Hc].
  - by rewrite writelines_cons, IH.
  - destruct (split_keepends r) as [| h t].
    + rewrite <- IH. reflexivity.
    + rewrite <- IH, !writelines_cons. reflexivity.
Qed.

Lemma writelines_readlines text :
  writelines (readlines text) = universal_newlines text.
Proof. apply writelines_split_keepends. Qed.

Lemma endswith_nl_app_nl s : endswith_nl (s +:+ nl) = true.
Proof.
  induction s as [| c r IH]; [done |].
  rewrite string_app_cons. simpl.
  destruct (r +:+ nl) eqn:Hr; [by destruct r | done].
Qed.

(** Splitting a text that ends with a newline leaves a last empty piece. *)
Lemma split_nl_app_nl s : split_nl (s +:+ nl) = split_nl s ++ [EmptyString].
Proof.
  unfold split_nl. induction s as [| c r IH]; [done |].
  rewrite string_app_cons. simpl.
  destruct (Ascii.eqb c LF); [by rewrite IH |].
  rewrite IH. pose proof (split_char_length LF r) as Hlen.
  destruct (split_char LF r) as [| h t]; [done | done].
Qed.

Lemma endswith_nl_split s :
  endswith_nl s = true → ∃ s', s = s' +:+ nl.
Proof.
  induction s as [| c r IH]; simpl; [done |].
  destruct r as [| c' r'].
  - intros Hc. apply Ascii.eqb_eq in Hc as ->. by exists EmptyString.
  - intros H. destruct (IH H) as [s' Hs']. exists (String c s').
    by rewrite string_app_cons, <- Hs'.
Qed.

Lemma LF_free_not_endswith s : LF_free s → endswith_nl s = false.
Proof.
  unfold LF_free. induction s as [| c r IH]; simpl; [done |].
  destruct (Ascii.eqb c LF) eqn:Hc; [lia |].
  intros H. destruct r; [done | by apply IH].
Qed.

(** The pieces of a split, written one after the other, are the text
    without its newlines; written each with a newline, they are the text
    and one more newline. *)
Lemma writelines_split_nl s : writelines (split_nl s) = without_newlines s.
Proof.
  unfold split_nl. induction s as [| c r IH]; [done |]. simpl.
  destruct (Ascii.eqb c LF); [by rewrite writelines_cons, IH |].
  pose proof (split_char_length LF r) as Hlen.
  destruct (split_char LF r) as [| h t]; [done |].
  rewrite <- IH, !writelines_cons. reflexivity.
Qed.

Lemma writelines_split_nl_terminated s :
  writelines (map (λ l, l +:+ nl) (split_nl s)) = s +:+ nl.
Proof.
  unfold split_nl. induction s as [| c r IH]; [done |]. simpl.
  destruct (Ascii.eqb_spec c LF) as [-> | Hc].
  - rewrite map_cons, writelines_cons, IH. reflexivity.
  - pose proof (split_char_length LF r) as Hlen.
    destruct (split_char LF r) as [| h t]; [done |].
    rewrite map_cons, writelines_cons in *.
    rewrite !string_app_cons. f_equal. exact IH.
Qed.

Lemma map_terminate_pieces s :
  map (λ line, if negb (endswith_nl line) then line +:+ nl else line)
      (split_nl s)
  = map (λ l, l +:+ nl) (split_nl s).
Proof.
  apply map_ext_Forall. eapply Forall_impl; [apply split_char_pieces |].
  intros piece Hp. simpl. by rewrite LF_free_not_endswith.
Qed.

(** What [append], [prepend] and the two insertions write for the pieces
    of a content: the non-empty pieces, each with a newline. *)
Lemma writelines_nonempty_terminated (f : string → string) l :
  (∀ x, f x = if truthy x then x +:+ nl else x) →
  writelines (map f l)
  = writelines (map (λ x, x +:+ nl) (filter (λ x, truthy x = true) l)).
Proof.
  intros Hf. induction l as [| x l IH]; [done |].
  rewrite map_cons, writelines_cons, IH, Hf.
  destruct x as [| c r]; simpl truthy.
  - by rewrite filter_cons_False.
  - by rewrite filter_cons_True.
Qed.

Lemma nonblank_lines_app_nl s : nonblank_lines (s +:+ nl) = nonblank_lines s.
Proof.
  unfold nonblank_lines. rewrite split_nl_app_nl, filter_app.
  rewrite (filter_cons_False _ EmptyString) by done.
  by rewrite filter_nil, app_nil_r.
Qed.

Lemma nonblank_lines_normalised content :
  nonblank_lines (if negb (endswith_nl content) then content +:+ nl
                  else content)
  = nonblank_lines content.
Proof.
  destruct (endswith_nl content); [done |]. apply nonblank_lines_app_nl.
Qed.

(** ** The other editing methods *)

Section OtherEdits.

Variable fs : gmap string string.
Variable file_path : string.
Variable text : string.
Hypothesis file_present : fs !! file_path = Some text.

(** In place of the block, [replace_block] writes the content followed by
    one more newline when the content ends with a newline, and the content
    with its newlines removed when it does not; the lines before [start]
    and after [end] are written as they were read. *)
Theorem replace_block_written_text start_line end_line new_content preserve :
  1 ≤ start_line → end_line ≤ len (readlines text) →
  ∃ modified_lines d,
    replace_block fs file_path start_line end_line new_content preserve
      = inr (modified_lines, d)
    ∧ writelines modified_lines
      = writelines (slice_to (readlines text) (start_line - 1))
        +:+ replacement_text
              (indented (readlines text) (start_line - 1) preserve
                 new_content)
        +:+ writelines (slice_from (readlines text) end_line).
Proof.
  intros H1 H2. unfold replace_block, _read_file.
  rewrite file_present. cbn [mbind exn_bind mret exn_ret].
  destruct (start_line - 1 <? 0) eqn:Hs; [apply Z.ltb_lt in Hs; lia |].
  destruct (len (readlines text) <? end_line) eqn:He;
    [apply Z.ltb_lt in He; lia |].
  cbn [orb]. eexists _, _. split; [reflexivity |].
  fold (indented (readlines text) (start_line - 1) preserve new_content).
  set (content := indented _ _ _ _).
  rewrite !writelines_app. f_equal. f_equal.
  unfold replacement_text.
  destruct (endswith_nl content) eqn:Hend.
  - rewrite andb_false_r, map_terminate_pieces.
    apply writelines_split_nl_terminated.
  - assert (bool_decide (split_nl content ≠ []) = true) as ->.
    { apply bool_decide_eq_true_2. intros Hnil.
      pose proof (split_char_length LF content) as Hlen.
      unfold split_nl in Hnil. by rewrite Hnil in Hlen. }
    apply writelines_split_nl.
Qed.

Lemma terminated_pieces_eq content :
  map (λ line, if negb (endswith_nl line) && truthy line
               then line +:+ nl else line) (split_nl content)
  = terminated_pieces content.
Proof.
  unfold terminated_pieces. apply map_ext_Forall.
  eapply Forall_impl; [apply split_char_pieces |].
  intros piece Hp. simpl. by rewrite LF_free_not_endswith.
Qed.

Lemma terminated_pieces_length content :
  len (terminated_pieces content) = Z.of_nat (count_char LF content) + 1.
Proof.
  unfold terminated_pieces, len, split_nl.
  rewrite length_map, split_char_length. lia.
Qed.

Lemma insert_before_range_error line_number new_content preserve :
  line_number < 1 ∨ len (readlines text) + 1 < line_number →
  insert_before fs file_path line_number new_content preserve
  = inl (ValueError
           ("Line number out of range: " +:+ str_Z line_number
            +:+ " (file has " +:+ str_Z (len (readlines text))
            +:+ " lines)")).
Proof.
  intros H. unfold insert_before, _read_file. rewrite file_present.
  cbn [mbind exn_bind mret exn_ret].
  destruct (line_number - 1 <? 0) eqn:Hs; cbn [orb]; [done |].
  apply Z.ltb_ge in Hs.
  destruct (len (readlines text) <? line_number - 1) eqn:He; [done |].
  apply Z.ltb_ge in He. lia.
Qed.

Lemma insert_before_returns line_number new_content preserve :
  1 ≤ line_number → line_number ≤ len (readlines text) + 1 →
  insert_before fs file_path line_number new_content preserve
  = inr (inserted_at (readlines text) (Z.to_nat (line_number - 1))
           (terminated_pieces
              (indented (readlines text) (line_number - 1) preserve
                 new_content)),
         _generate_unified_diff file_path (readlines text)
           (inserted_at (readlines text) (Z.to_nat (line_number - 1))
              (terminated_pieces
                 (indented (readlines text) (line_number - 1) preserve
                    new_content)))).
Proof.
  intros H1 H2. unfold insert_before, _read_file. rewrite file_present.
  cbn [mbind exn_bind mret exn_ret].
  destruct (line_number - 1 <? 0) eqn:Hs; [apply Z.ltb_lt in Hs; lia |].
  destruct (len (readlines text) <? line_number - 1) eqn:He;
    [apply Z.ltb_lt in He; lia |].
  cbn [orb]. rewrite terminated_pieces_eq.
  unfold inserted_at, indented, slice_to, slice_from, slice_bound.
  by rewrite Hs.
Qed.

(** [insert_before] raises exactly when the line number is below 1 or
    above the line count plus one, and then a [ValueError] that names the
    line number and the line count.  Otherwise it returns the lines read,
    with the pieces of the content (re-indented when asked), each non-empty
    piece ended by a newline, inserted before that line, and the diff
    between the lines read and that buffer. *)
Theorem insert_before_inserts line_number new_content preserve :
  ((∃ e, insert_before fs file_path line_number new_content preserve = inl e)
   ↔ line_number < 1 ∨ len (readlines text) + 1 < line_number)
  ∧ (line_number < 1 ∨ len (readlines text) + 1 < line_number →
     insert_before fs file_path line_number new_content preserve
     = inl (ValueError
              ("Line number out of range: " +:+ str_Z line_number
               +:+ " (file has " +:+ str_Z (len (readlines text))
               +:+ " lines)")))
  ∧ (1 ≤ line_number → line_number ≤ len (readlines text) + 1 →
     insert_before fs file_path line_number new_content preserve
     = inr (inserted_at (readlines text) (Z.to_nat (line_number - 1))
              (terminated_pieces
                 (indented (readlines text) (line_number - 1) preserve
                    new_content)),
            _generate_unified_diff file_path (readlines text)
              (inserted_at (readlines text) (Z.to_nat (line_number - 1))
                 (terminated_pieces
                    (indented (readlines text) (line_number - 1) preserve
                       new_content))))
     ∧ len (terminated_pieces
              (indented (readlines text) (line_number - 1) preserve
                 new_content))
       = Z.of_nat (count_char LF new_content) + 1).
Proof.
  split; [| split].
  - split.
    + intros [e He].
      destruct (Z.lt_ge_cases line_number 1) as [| H1]; [by left |].
      destruct (Z.lt_ge_cases (len (readlines text) + 1) line_number)
        as [| H2]; [by right |].
      by rewrite (insert_before_returns _ new_content preserve H1 H2) in He.
    + intros H. rewrite (insert_before_range_error _ new_content preserve H).
      eauto.
  - apply insert_before_range_error.
  - intros H1 H2. split; [by apply insert_before_returns |].
    rewrite terminated_pieces_length. unfold indented.
    by rewrite indented_count by apply item_is_line.
Qed.

Lemma insert_after_range_error line_number new_content preserve :
  line_number < 0 ∨ len (readlines text) < line_number →
  insert_after fs file_path line_number new_content preserve
  = inl (ValueError
           ("Line number out of range: " +:+ str_Z line_number
            +:+ " (file has " +:+ str_Z (len (readlines text))
            +:+ " lines)")).
Proof.
  intros H. unfold insert_after, _read_file. rewrite file_present.
  cbn [mbind exn_bind mret exn_ret].
  destruct (line_number <? 0) eqn:Hs; cbn [orb]; [done |].
  apply Z.ltb_ge in Hs.
  destruct (len (readlines text) <? line_number) eqn:He; [done |].
  apply Z.ltb_ge in He. lia.
Qed.

Lemma insert_after_returns line_number new_content preserve :
  0 ≤ line_number → line_number ≤ len (readlines text) →
  insert_after fs file_path line_number new_content preserve
  = inr (inserted_at (readlines text) (Z.to_nat line_number)
           (terminated_pieces
              (indented_from_previous (readlines text) line_number preserve
                 new_content)),
         _generate_unified_diff file_path (readlines text)
           (inserted_at (readlines text) (Z.to_nat line_number)
              (terminated_pieces
                 (indented_from_previous (readlines text) line_number
                    preserve new_content)))).
Proof.
  intros H1 H2. unfold insert_after, _read_file. rewrite file_present.
  cbn [mbind exn_bind mret exn_ret].
  destruct (line_number <? 0) eqn:Hs; [apply Z.ltb_lt in Hs; lia |].
  destruct (len (readlines text) <? line_number) eqn:He;
    [apply Z.ltb_lt in He; lia |].
  cbn [orb]. rewrite terminated_pieces_eq.
  unfold inserted_at, indented_from_previous, slice_to, slice_from,
    slice_bound.
  by rewrite Hs.
Qed.

(** [insert_after] raises exactly when the line number is negative or
    above the line count, and then a [ValueError] that names the line
    number and the line count.  Otherwise it returns the lines read, with
    the pieces of the content (re-indented from the line before when
    asked), each non-empty piece ended by a newline, inserted after that
    line, and the diff between the lines read and that buffer. *)
Theorem insert_after_inserts line_number new_content preserve :
  ((∃ e, insert_after fs file_path line_number new_content preserve = inl e)
   ↔ line_number < 0 ∨ len (readlines text) < line_number)
  ∧ (line_number < 0 ∨ len (readlines text) < line_number →
     insert_after fs file_path line_number new_content preserve
     = inl (ValueError
              ("Line number out of range: " +:+ str_Z line_number
               +:+ " (file has " +:+ str_Z (len (readlines text))
               +:+ " lines)")))
  ∧ (0 ≤ line_number → line_number ≤ len (readlines text) →
     insert_after fs file_path line_number new_content preserve
     = inr (inserted_at (readlines text) (Z.to_nat line_number)
              (terminated_pieces
                 (indented_from_previous (readlines text) line_number
                    preserve new_content)),
            _generate_unified_diff file_path (readlines text)
              (inserted_at (readlines text) (Z.to_nat line_number)
                 (terminated_pieces
                    (indented_from_previous (readlines text) line_number
                       preserve new_content))))
     ∧ len (terminated_pieces
              (indented_from_previous (readlines text) line_number preserve
                 new_content))
       = Z.of_nat (count_char LF new_content) + 1).
Proof.
  split; [| split].
  - split.
    + intros [e He].
      destruct (Z.lt_ge_cases line_number 0) as [| H1]; [by left |].
      destruct (Z.lt_ge_cases (len (readlines text)) line_number)
        as [| H2]; [by right |].
      by rewrite (insert_after_returns _ new_content preserve H1 H2) in He.
    + intros H. rewrite (insert_after_range_error _ new_content preserve H).
      eauto.
  - apply insert_after_range_error.
  - intros H1 H2. split; [by apply insert_after_returns |].
    rewrite terminated_pieces_length. unfold indented_from_previous.
    by rewrite indented_count by apply item_is_line.
Qed.

(** Without indentation copying, inserting before line [n] is inserting
    after line [n - 1]: same buffer and same diff. *)
Theorem insert_before_is_insert_after line_number new_content :
  1 ≤ line_number → line_number ≤ len (readlines text) + 1 →
  insert_before fs file_path line_number new_content false
  = insert_after fs file_path (line_number - 1) new_content false.
Proof.
  intros H1 H2. unfold insert_before, insert_after, _read_file.
  rewrite file_present. cbn [mbind exn_bind mret exn_ret andb].
  destruct (line_number - 1 <? 0) eqn:Hs; [apply Z.ltb_lt in Hs; lia |].
  destruct (len (readlines text) <? line_number - 1) eqn:He;
    [apply Z.ltb_lt in He; lia |].
  reflexivity.
Qed.

Lemma append_buffer new_content :
  ∃ modified_lines d,
    append fs file_path new_content = inr (modified_lines, d)
    ∧ writelines modified_lines
      = universal_newlines text +:+ writelines (nonblank_lines new_content).
Proof.
  unfold append, _read_file. rewrite file_present.
  cbn [mbind exn_bind mret exn_ret].
  eexists _, _. split; [reflexivity |].
  rewrite writelines_app, writelines_readlines. f_equal.
  rewrite (writelines_nonempty_terminated _ _ (λ _, eq_refl)).
  fold (nonblank_lines (if negb (endswith_nl new_content)
                        then new_content +:+ nl else new_content)).
  by rewrite nonblank_lines_normalised.
Qed.

(** [append] never fails on a file that can be read; written out, its
    buffer is the text read followed by the non-empty lines of the
    content, each ended by a newline. *)
Theorem append_written_text new_content :
  ∃ modified_lines d,
    append fs file_path new_content = inr (modified_lines, d)
    ∧ writelines modified_lines
      = universal_newlines text +:+ writelines (nonblank_lines new_content).
Proof. apply append_buffer. Qed.

(** [prepend] never fails on a file that can be read; written out, its
    buffer is the non-empty lines of the content, each ended by a newline,
    followed by the text read. *)
Theorem prepend_written_text new_content :
  ∃ modified_lines d,
    prepend fs file_path new_content = inr (modified_lines, d)
    ∧ writelines modified_lines
      = writelines (nonblank_lines new_content) +:+ universal_newlines text.
Proof.
  unfold prepend, _read_file. rewrite file_present.
  cbn [mbind exn_bind mret exn_ret].
  eexists _, _. split; [reflexivity |].
  rewrite writelines_app, writelines_readlines. f_equal.
  rewrite (writelines_nonempty_terminated _ _ (λ _, eq_refl)).
  fold (nonblank_lines (if negb (endswith_nl new_content)
                        then new_content +:+ nl else new_content)).
  by rewrite nonblank_lines_normalised.
Qed.

End OtherEdits.

(** ** Indentation *)

Lemma split_char_LF_free s : LF_free s → split_char LF s = [s].
Proof.
  unfold LF_free. induction s as [| c r IH]; simpl; [done |].
  destruct (Ascii.eqb c LF); [lia |]. intros H. by rewrite IH.
Qed.

Lemma split_char_app_LF x rest :
  LF_free x → split_char LF (x +:+ nl +:+ rest) = x :: split_char LF rest.
Proof.
  unfold LF_free. induction x as [| c r IH]; intros H.
  - reflexivity.
  - simpl in H. destruct (Ascii.eqb c LF) eqn:Hc; [lia |].
    rewrite string_app_cons. simpl. rewrite Hc, IH by done. done.
Qed.

(** Joining newline-free pieces and splitting again gives the pieces. *)
Lemma split_nl_join l :
  l ≠ [] → Forall LF_free l → split_nl (join nl l) = l.
Proof.
  unfold split_nl. intros Hne Hall.
  induction Hall as [| x l Hx Hl IH]; [done |].
  destruct l as [| y l'].
  - by apply split_char_LF_free.
  - change (join nl (x :: y :: l')) with (x +:+ nl +:+ join nl (y :: l')).
    rewrite split_char_app_LF by done. by rewrite IH.
Qed.

Lemma lstrip_LF_free s : LF_free s → LF_free (lstrip s).
Proof. apply count_char_lstrip. Qed.

Lemma indent_of_LF_free original_line :
  is_line original_line = true →
  truthy (strip original_line) = true →
  LF_free (indent_of original_line).
Proof.
  intros Hline Hstrip. apply is_line_prefix; [done |].
  apply strip_truthy, truthy_length in Hstrip.
  pose proof (lstrip_length original_line). lia.
Qed.

(** Stripping a text that starts with the indentation of a line strips the
    indentation too. *)
Lemma lstrip_indent_of original_line s :
  lstrip (indent_of original_line +:+ s) = lstrip s.
Proof.
  unfold indent_of, prefix.
  induction original_line as [| c r IH]; [done |].
  simpl lstrip. destruct (isspace c) eqn:Hc.
  - pose proof (lstrip_length r).
    cbn [String.length].
    replace (S (String.length r) - String.length (lstrip r))%nat
      with (S (String.length r - String.length (lstrip r))) by lia.
    cbn [substring]. rewrite string_app_cons. cbn [lstrip].
    by rewrite Hc.
  - by rewrite Nat.sub_diag.
Qed.

Lemma lstrip_idemp s : lstrip (lstrip s) = lstrip s.
Proof.
  induction s as [| c r IH]; [done |]. simpl.
  destruct (isspace c) eqn:Hc; [done |]. simpl. by rewrite Hc.
Qed.

Lemma preserve_indentation_pieces original_line new_content :
  is_line original_line = true →
  truthy (strip original_line) = true →
  ∃ first rest,
    split_nl new_content = first :: rest
    ∧ split_nl (_preserve_indentation original_line new_content)
      = (indent_of original_line +:+ lstrip first) :: rest.
Proof.
  intros Hline Hstrip. unfold _preserve_indentation. rewrite Hstrip.
  cbn [negb].
  pose proof (split_char_length LF new_content
              : length (split_nl new_content) = _) as Hlen.
  pose proof (split_char_pieces LF new_content
              : Forall _ (split_nl new_content)) as Hpieces.
  destruct (split_nl new_content) as [| first rest]; [done |].
  exists first, rest. split; [done |].
  apply Forall_cons in Hpieces as [Hfirst Hrest].
  apply split_nl_join; [done |]. constructor; [| done].
  unfold LF_free. rewrite count_char_app.
  rewrite (indent_of_LF_free _ Hline Hstrip).
  by rewrite (lstrip_LF_free _ Hfirst).
Qed.

(** Copying indentation changes the first line of the content only: the
    first piece loses its own leading whitespace and receives that of the
    original line, every later piece is as given. *)
Theorem preserve_indentation_first_line_only original_line new_content :
  is_line original_line = true →
  truthy (strip original_line) = true →
  ∃ first rest,
    split_nl new_content = first :: rest
    ∧ split_nl (_preserve_indentation original_line new_content)
      = (indent_of original_line +:+ lstrip first) :: rest.
Proof. apply preserve_indentation_pieces. Qed.

(** Copying the indentation of a line twice is copying it once. *)
Theorem preserve_indentation_idempotent original_line new_content :
  is_line original_line = true →
  _preserve_indentation original_line
    (_preserve_indentation original_line new_content)
  = _preserve_indentation original_line new_content.
Proof.
  intros Hline.
  destruct (truthy (strip original_line)) eqn:Hstrip.
  - destruct (preserve_indentation_pieces _ new_content
                Hline Hstrip) as (first & rest & Hsplit & Hsplit').
    unfold _preserve_indentation at 1. rewrite Hstrip. cbn [negb].
    rewrite Hsplit'. fold (indent_of original_line).
    rewrite lstrip_indent_of, lstrip_idemp.
    unfold _preserve_indentation. rewrite Hstrip. cbn [negb].
    rewrite Hsplit. reflexivity.
  - unfold _preserve_indentation. by rewrite Hstrip.
Qed.

(** ** Carriage returns *)

Lemma universal_newlines_cons c r :
  universal_newlines (String c r)
  = if Ascii.eqb c CR then
      match r with
      | String c2 r2 =>
          if Ascii.eqb c2 LF then String LF (universal_newlines r2)
          else String LF (universal_newlines r)
      | EmptyString => nl
      end
    else String c (universal_newlines r).
Proof. reflexivity. Qed.

Lemma count_char_cons x c r :
  count_char x (String c r)
  = ((if Ascii.eqb c x then 1 else 0) + count_char x r)%nat.
Proof. reflexivity. Qed.

Lemma universal_newlines_CR_free_upto n :
  ∀ s, (String.length s ≤ n)%nat → CR_free (universal_newlines s).
Proof.
  unfold CR_free. induction n as [| n IH]; intros [| c r] Hlen;
    try done; cbn [String.length] in Hlen; [lia |].
  rewrite universal_newlines_cons.
  destruct (Ascii.eqb c CR) eqn:Hc.
  - destruct r as [| c2 r2]; [done |]. cbn [String.length] in Hlen.
    destruct (Ascii.eqb c2 LF); rewrite count_char_cons;
      rewrite IH by (cbn [String.length]; lia); done.
  - rewrite count_char_cons, Hc, IH by lia. done.
Qed.

Lemma universal_newlines_CR_free s : CR_free (universal_newlines s).
Proof. by apply (universal_newlines_CR_free_upto (String.length s)). Qed.

(** A text without carriage returns is read as it is. *)
Lemma universal_newlines_id s : CR_free s → universal_newlines s = s.
Proof.
  unfold CR_free. induction s as [| c r IH]; simpl; [done |].
  destruct (Ascii.eqb c CR); [lia |]. intros H. by rewrite IH.
Qed.

Lemma split_char_keeps_free x sep s :
  count_char x s = 0%nat →
  Forall (λ piece, count_char x piece = 0%nat) (split_char sep s).
Proof.
  induction s as [| c r IH]; simpl; [by repeat constructor |].
  intros H. destruct (Ascii.eqb c x) eqn:Hx; [lia |].
  specialize (IH H).
  destruct (Ascii.eqb c sep); [by constructor |].
  destruct (split_char sep r) as [| h t]; simpl.
  - repeat constructor. simpl. by rewrite Hx.
  - apply Forall_cons in IH as [Hh Ht]. constructor; [| done].
    simpl. by rewrite Hx.
Qed.

Lemma nonblank_lines_CR_free content :
  CR_free content → CR_free (writelines (nonblank_lines content)).
Proof.
  unfold CR_free, nonblank_lines, split_nl. intros H.
  pose proof (split_char_keeps_free CR LF content H) as Hall.
  induction Hall as [| x l Hx Hl IH]; [done |].
  destruct x as [| c r].
  - by rewrite filter_cons_False.
  - rewrite filter_cons_True by done.
    rewrite map_cons, writelines_cons, !count_char_app, Hx, IH. done.
Qed.

(** ** Operations on one file *)

Section OneOperation.

Variable self : PatchManager.
Variable host : Host.

Lemma exists_true fs path text :
  fs !! path = Some text → exists_ fs path = true.
Proof. intros H. apply bool_decide_eq_true_2. by rewrite H. Qed.

(** What a real (not dry-run) append with inline content does. *)
Lemma apply_operation_append fs operation text content :
  dry_run self = false →
  op operation = "append" →
  block operation = Some content →
  content ≠ EmptyString →
  fs !! path_join (project_root self) (file operation) = Some text →
  ∃ r,
    apply_operation self host fs operation
    = (inr r,
       <[path_join (project_root self) (file operation)
         := universal_newlines text +:+ writelines (nonblank_lines content)]>
         fs)
    ∧ OpResult.success r = true.
Proof.
  intros Hdry Hop Hblock Hne Hfile. unfold apply_operation.
  rewrite (exists_true _ _ _ Hfile). cbn [negb].
  unfold _get_content. rewrite Hblock.
  destruct content as [| c s]; [done |]. cbn [truthy_opt truthy default].
  unfold dispatch. rewrite Hop. cbn -[append].
  destruct (append_buffer fs _ text Hfile (String c s))
    as (m & d & -> & Hm).
  unfold _write_file. rewrite Hdry, Hm. eexists. split; reflexivity.
Qed.

(** Appending is not idempotent: after the same inline content has been
    appended twice to a file, the file holds the text it had, followed by
    two copies of the non-empty lines of the content. *)
Theorem append_twice_keeps_both_copies fs operation text content :
  dry_run self = false →
  op operation = "append" →
  block operation = Some content →
  content ≠ EmptyString →
  CR_free content →
  fs !! path_join (project_root self) (file operation) = Some text →
  snd (apply_operation self host
         (snd (apply_operation self host fs operation)) operation)
    !! path_join (project_root self) (file operation)
  = Some (universal_newlines text
          +:+ writelines (nonblank_lines content)
          +:+ writelines (nonblank_lines content)).
Proof.
  intros Hdry Hop Hblock Hne Hcr Hfile.
  destruct (apply_operation_append fs operation text content)
    as (r1 & -> & _); try done.
  cbn [snd].
  edestruct (apply_operation_append
               (<[path_join (project_root self) (file operation)
                  := universal_newlines text
                     +:+ writelines (nonblank_lines content)]> fs)
               operation) as (r2 & -> & _); try done.
  { apply lookup_insert_eq. }
  cbn [snd]. rewrite lookup_insert_eq. f_equal.
  rewrite universal_newlines_id, string_app_assoc; [done |].
  unfold CR_free. rewrite count_char_app.
  rewrite (universal_newlines_CR_free text).
  by rewrite (nonblank_lines_CR_free _ Hcr).
Qed.




(** The mistakes the editing methods reject (a missing line number, a
    line number out of range, an unknown kind) are recorded and nothing is
    written: for an existing target and a content that resolves,
    [apply_operation] returns a failed result with the text of the
    [ValueError], no diff and a type check recorded as failed whatever the
    type of the file, and leaves the tree as it was.  For an operation
    without such a mistake the editing method returns a buffer and a
    diff. *)
Theorem rejected_operation_writes_nothing fs operation text content :
  fs !! path_join (project_root self) (file operation) = Some text →
  _get_content self fs operation = inr content →
  match rejection operation (len (readlines text)) with
  | Some msg =>
      apply_operation self host fs operation
      = (inr (failed_result operation msg), fs)
  | None =>
      ∃ modified_lines d,
        dispatch fs (path_join (project_root self) (file operation))
          operation content
        = inr (modified_lines, d)
  end.
Proof.
  intros Hfile Hcontent.
  set (file_path := path_join (project_root self) (file operation)) in *.
  assert (∀ msg,
            dispatch fs file_path operation content = inl (ValueError msg) →
            apply_operation self host fs operation
            = (inr (failed_result operation msg), fs)) as Hfail.
  { intros msg Hd. unfold apply_operation. fold file_path.
    rewrite (exists_true _ _ _ Hfile). cbn [negb].
    by rewrite Hcontent, Hd. }
  unfold rejection.
  destruct (String.eqb (op operation) "replace-block") eqn:E1.
  { destruct (start operation) as [first |] eqn:Hstart,
             (end_ operation) as [last |] eqn:Hend;
      try (apply Hfail; unfold dispatch; rewrite E1, Hstart, ?Hend;
           reflexivity).
    destruct ((first <? 1) || (len (readlines text) <? last)) eqn:Hr.
    - apply Hfail. unfold dispatch. rewrite E1, Hstart, Hend.
      apply (replace_block_range_error _ _ _ Hfile).
      apply orb_true_iff in Hr as [Hr | Hr]; apply Z.ltb_lt in Hr;
        [by left | by right].
    - unfold dispatch. rewrite E1, Hstart, Hend.
      destruct (replace_block fs file_path first last content
                  (negb (openSpace operation))) as [e | [m d]] eqn:Hrb;
        [| eauto].
      exfalso. apply orb_false_iff in Hr as [Hr1 Hr2].
      apply Z.ltb_ge in Hr1, Hr2.
      assert (first < 1 ∨ len (readlines text) < last) as [? | ?]; [| lia..].
      apply (replace_block_raises_iff _ _ _ Hfile first last content
               (negb (openSpace operation))). eauto. }
  destruct (String.eqb (op operation) "insert-before") eqn:E2.
  { destruct (line operation) as [at_line |] eqn:Hline;
      [| apply Hfail; unfold dispatch; by rewrite E1, E2, Hline].
    destruct ((at_line <? 1) || (len (readlines text) + 1 <? at_line))
      eqn:Hr.
    - apply Hfail. unfold dispatch. rewrite E1, E2, Hline.
      apply (insert_before_range_error _ _ _ Hfile).
      apply orb_true_iff in Hr as [Hr | Hr]; apply Z.ltb_lt in Hr;
        [by left | by right].
    - unfold dispatch. rewrite E1, E2, Hline.
      apply orb_false_iff in Hr as [Hr1 Hr2]. apply Z.ltb_ge in Hr1, Hr2.
      rewrite (insert_before_returns _ _ _ Hfile) by done. eauto. }
  destruct (String.eqb (op operation) "insert-after") eqn:E3.
  { destruct (line operation) as [at_line |] eqn:Hline;
      [| apply Hfail; unfold dispatch; by rewrite E1, E2, E3, Hline].
    destruct ((at_line <? 0) || (len (readlines text) <? at_line)) eqn:Hr.
    - apply Hfail. unfold dispatch. rewrite E1, E2, E3, Hline.
      apply (insert_after_range_error _ _ _ Hfile).
      apply orb_true_iff in Hr as [Hr | Hr]; apply Z.ltb_lt in Hr;
        [by left | by right].
    - unfold dispatch. rewrite E1, E2, E3, Hline.
      apply orb_false_iff in Hr as [Hr1 Hr2]. apply Z.ltb_ge in Hr1, Hr2.
      rewrite (insert_after_returns _ _ _ Hfile) by done. eauto. }
  destruct (String.eqb (op operation) "append") eqn:E4.
  { unfold dispatch. rewrite E1, E2, E3, E4.
    unfold append, _read_file. rewrite Hfile. eauto. }
  destruct (String.eqb (op operation) "prepend") eqn:E5.
  { unfold dispatch. rewrite E1, E2, E3, E4, E5.
    unfold prepend, _read_file. rewrite Hfile. eauto. }
  apply Hfail. unfold dispatch. by rewrite E1, E2, E3, E4, E5.
Qed.

(** The type checker plays no part in an operation on a file that is
    neither [.ts] nor [.tsx]: the outcome is the same on every host. *)
Theorem checker_ignored_for_other_files (host' : Host) fs operation :
  suffix (path_join (project_root self) (file operation))
    ∉ [".ts"; ".tsx"] →
  apply_operation self host' fs operation
  = apply_operation self host fs operation.
Proof.
  intros Hts. unfold apply_operation.
  by rewrite (bool_decide_eq_false_2 _ Hts).
Qed.

End OneOperation.

(** ** Whole batches *)

Section WholeBatch.

Variable self : PatchManager.
Variable host : Host.

Lemma notify_keeps_files w patch_id file op status task_id ts_check_ok meta :
  fs (snd (notify_orchestrator self host w patch_id file op status task_id
             ts_check_ok None (Some meta)))
  = fs w.
Proof. by rewrite notify_without_diff. Qed.

(** The loop, seen from the file tree: the tree after the loop is the tree
    after the operations it has run, applied one after the other. *)
Lemma apply_operations_tree patch_id n operations :
  ∀ i w results0 out w',
    apply_operations self host patch_id n i operations w results0
      = (out, w') →
    match out with
    | inr _ => fs w' = apply_all self host (fs w) operations
    | inl e =>
        ∃ before raising after,
          operations = before ++ raising :: after
          ∧ fs w' = apply_all self host (fs w) before
          ∧ fst (apply_operation self host (fs w') raising) = inl e
    end.
Proof.
  induction operations as [| operation rest IH]; intros i w results0 out w' H.
  - simpl in H. by injection H as <- <-.
  - destruct (apply_operation self host (fs w) operation)
      as [[e | result] fs'] eqn:Hop.
    + rewrite (apply_operations_raise _ _ _ _ _ _ _ _ _ _ _ Hop) in H.
      injection H as <- <-. simpl.
      pose proof (apply_operation_raises_fs _ _ _ _ _ _ Hop) as ->.
      exists [], operation, rest. by rewrite Hop.
    + rewrite (apply_operations_step _ _ _ _ _ _ _ _ _ _ _ Hop) in H.
      apply IH in H. simpl in H.
      unfold apply_all. simpl foldl. rewrite Hop. simpl snd.
      destruct out as [e | results]; [| done].
      destruct H as (before & raising & after & -> & Hfs & He).
      exists (operation :: before), raising, after.
      split; [done |]. split; [| done].
      simpl foldl. by rewrite Hop.
Qed.

(** Within a batch every operation works on the tree left by the ones
    before it.  When [apply_batch] returns, validation has passed and the
    tree is the one obtained by applying the operations one after the
    other.  When it raises, either validation raised that exception and
    the world is untouched, or validation passed, one operation raised it,
    and the tree is the one obtained by applying the operations that
    precede the raising one: their edits are not undone. *)
Theorem apply_batch_applies_in_order w batch out w' :
  apply_batch self host w batch = (out, w') →
  match out with
  | inr _ =>
      _validate_against_task_schema self host (fs w) batch = inr tt
      ∧ fs w' = apply_all self host (fs w) (patches batch)
  | inl e =>
      (_validate_against_task_schema self host (fs w) batch = inl e
       ∧ w' = w)
      ∨ (_validate_against_task_schema self host (fs w) batch = inr tt
         ∧ ∃ before raising after,
             patches batch = before ++ raising :: after
             ∧ fs w' = apply_all self host (fs w) before
             ∧ fst (apply_operation self host (fs w') raising) = inl e)
  end.
Proof.
  unfold apply_batch, run_batch. intros H.
  destruct (_validate_against_task_schema self host (fs w) batch)
    as [e | []].
  { injection H as <- <-. by left. }
  destruct (apply_operations _ _ _ _ _ _ _ _) as [[e | results] w1] eqn:Hloop;
    injection H as <- <-; apply apply_operations_tree in Hloop.
  - by right.
  - done.
Qed.



Lemma count_true_split (l : list bool) :
  (count_true l + count_true (map negb l))%nat = length l.
Proof.
  unfold count_true. induction l as [| b l IH]; [done |].
  destruct b; simpl map.
  - rewrite filter_cons_True, filter_cons_False by done. simpl. lia.
  - rewrite filter_cons_False, filter_cons_True by done. simpl. lia.
Qed.

Lemma count_true_none (l : list bool) :
  count_true (map negb l) = 0%nat ↔ forallb id l = true.
Proof.
  unfold count_true. induction l as [| b l IH]; [done |].
  destruct b; simpl map; simpl forallb.
  - by rewrite filter_cons_False.
  - rewrite filter_cons_True by done. simpl. split; [lia | done].
Qed.

Lemma forallb_id_map {A} (f : A → bool) (l : list A) :
  forallb id (map f l) = forallb f l.
Proof. induction l as [| x l IH]; simpl; [done | by rewrite IH]. Qed.

(** The counts of a returned [BatchResult]: one result per operation of the
    batch, [succeeded] and [failed] add up to [total], and [success] holds
    exactly when nothing failed. *)
Theorem batch_result_counts w batch res w' :
  apply_batch self host w batch = (inr res, w') →
  BatchResult.total res = length (patches batch)
  ∧ length (BatchResult.operations res) = BatchResult.total res
  ∧ (BatchResult.succeeded res + BatchResult.failed res)%nat
    = BatchResult.total res
  ∧ (BatchResult.success res = true ↔ BatchResult.failed res = 0%nat).
Proof.
  unfold apply_batch, run_batch. intros H.
  destruct (_validate_against_task_schema self host (fs w) batch);
    [discriminate |].
  destruct (apply_operations _ _ _ _ _ _ _ _) as [[e | results] w1] eqn:Hloop;
    [discriminate |].
  injection H as <- <-. simpl.
  apply apply_operations_posted in Hloop as (new & Hres & Hlen & _).
  simpl in Hres. subst new.
  split; [done |]. split; [done |]. split.
  - rewrite <- (length_map OpResult.success results).
    rewrite <- count_true_split. f_equal. by rewrite map_map.
  - rewrite <- (map_map OpResult.success negb), count_true_none.
    by rewrite forallb_id_map.
Qed.

(** What the loop adds to the results: for each operation, in order, a
    result naming its file and its kind. *)
Lemma apply_operations_results patch_id n operations :
  ∀ i w results0 results w',
    apply_operations self host patch_id n i operations w results0
      = (inr results, w') →
    ∃ new,
      results = results0 ++ new
      ∧ Forall2 (λ operation r,
                   OpResult.file r = file operation
                   ∧ OpResult.op r = op operation)
                operations new.
Proof.
  induction operations as [| operation rest IH];
    intros i w results0 results w' H.
  - simpl in H. injection H as <- <-. exists []. by rewrite app_nil_r.
  - destruct (apply_operation self host (fs w) operation)
      as [[e | result] fs'] eqn:Hop.
    + by rewrite (apply_operations_raise _ _ _ _ _ _ _ _ _ _ _ Hop) in H.
    + rewrite (apply_operations_step _ _ _ _ _ _ _ _ _ _ _ Hop) in H.
      apply IH in H as (new & -> & Hall).
      exists (result :: new). split; [by rewrite <- app_assoc |].
      constructor; [| done].
      unfold apply_operation in Hop.
      destruct (negb _); [discriminate |].
      destruct (_get_content self _ operation); [discriminate |].
      destruct (dispatch _ _ _ _) as [e | [m d]];
        by injection Hop as <- _.
Qed.

(** The results of a returned batch follow the operations: the result at
    each position names the file and the kind of the operation at that
    position. *)
Theorem batch_results_follow_operations w batch res w' :
  apply_batch self host w batch = (inr res, w') →
  Forall2 (λ operation r,
             OpResult.file r = file operation
             ∧ OpResult.op r = op operation)
          (patches batch) (BatchResult.operations res).
Proof.
  unfold apply_batch, run_batch. intros H.
  destruct (_validate_against_task_schema self host (fs w) batch);
    [discriminate |].
  destruct (apply_operations _ _ _ _ _ _ _ _) as [[e | results] w1] eqn:Hloop;
    [discriminate |].
  injection H as <- <-. simpl.
  apply apply_operations_results in Hloop as (new & Hres & Hall).
  simpl in Hres. by subst new.
Qed.

(** Errors raised inside the [try] of [apply_operation] never stop a
    batch: when validation passes and every operation has an existing
    target and a content that resolves, [apply_batch] returns a result with
    one entry per operation. *)
Theorem apply_batch_returns_when_runnable w batch :
  _validate_against_task_schema self host (fs w) batch = inr tt →
  Forall (runnable self (fs w)) (patches batch) →
  ∃ res w',
    apply_batch self host w batch = (inr res, w')
    ∧ length (BatchResult.operations res) = length (patches batch).
Proof.
  intros Hval Hall. unfold apply_batch. rewrite Hval.
  by apply run_batch_returns.
Qed.

End WholeBatch.

(** ** The orchestrator and the dry run do not steer the edits *)

Section Independence.

Variable self : PatchManager.

Lemma apply_operation_same_checker (host1 host2 : Host) fs operation :
  (∀ path fs, run_tsc host1 path fs = run_tsc host2 path fs) →
  apply_operation self host1 fs operation
  = apply_operation self host2 fs operation.
Proof.
  intros Hsame. unfold apply_operation, _check_typescript.
  destruct (negb _); [done |].
  destruct (_get_content self fs operation); [done |].
  destruct (dispatch _ _ _ _) as [e | [m d]]; [done |].
  by rewrite Hsame.
Qed.

Lemma apply_operations_same_machine (host1 host2 : Host)
    patch_id n operations :
  (∀ path fs, run_tsc host1 path fs = run_tsc host2 path fs) →
  ∀ i w1 w2 results0,
    fs w1 = fs w2 →
    fst (apply_operations self host1 patch_id n i operations w1 results0)
    = fst (apply_operations self host2 patch_id n i operations w2 results0)
    ∧ fs (snd (apply_operations self host1 patch_id n i operations w1
                 results0))
      = fs (snd (apply_operations self host2 patch_id n i operations w2
                   results0)).
Proof.
  intros Hsame.
  induction operations as [| operation rest IH]; intros i w1 w2 results0 Hfs.
  - done.
  - pose proof (apply_operation_same_checker host1 host2 (fs w1) operation
                  Hsame) as Hop.
    destruct (apply_operation self host2 (fs w1) operation)
      as [[e | result] fs'] eqn:Hop2.
    + rewrite (apply_operations_raise _ _ _ _ _ _ _ _ _ _ _ Hop).
      rewrite Hfs in Hop2.
      by rewrite (apply_operations_raise _ _ _ _ _ _ _ _ _ _ _ Hop2).
    + rewrite (apply_operations_step _ _ _ _ _ _ _ _ _ _ _ Hop).
      rewrite Hfs in Hop2.
      rewrite (apply_operations_step _ _ _ _ _ _ _ _ _ _ _ Hop2).
      by apply IH.
Qed.

(** Whether the orchestrator can be reached, and what it answers, changes
    neither what [apply_batch] returns or raises nor the files it leaves:
    notification is best effort. *)
Theorem notification_never_changes_outcome (host1 host2 : Host) w batch :
  same_machine host1 host2 →
  fst (apply_batch self host1 w batch) = fst (apply_batch self host2 w batch)
  ∧ fs (snd (apply_batch self host1 w batch))
    = fs (snd (apply_batch self host2 w batch)).
Proof.
  intros (Htsc & Hjson & Hid). unfold apply_batch.
  assert (_validate_against_task_schema self host1 (fs w) batch
          = _validate_against_task_schema self host2 (fs w) batch) as ->.
  { unfold _validate_against_task_schema.
    destruct (fs w !! schema_path self); [| done]. by rewrite Hjson. }
  destruct (_validate_against_task_schema self host2 (fs w) batch);
    [done |].
  unfold run_batch. rewrite Hid.
  set (patch_id := if truthy_opt (orderId batch) then _ else _).
  destruct (apply_operations_same_machine host1 host2 patch_id
              (length (patches batch)) (patches batch) Htsc 0%nat w w []
              eq_refl) as [Hout Hfs].
  destruct (apply_operations self host1 _ _ _ _ _ _) as [[e1 | r1] w1],
           (apply_operations self host2 _ _ _ _ _ _) as [[e2 | r2] w2];
    simpl in *; try discriminate; by simplify_eq.
Qed.

(** A dry run previews the real run.  On the same tree, one operation run
    with [dry_run] set and with [dry_run] unset raises the same exceptions;
    when the real run succeeds, the dry run returns the same success flag
    and the same diff (only the type check, made on the file as it is on
    disk, can differ); when the dry run reports a failure, the real run
    reports the same failure. *)
Theorem dry_run_previews_operation (host : Host) fs operation :
  (∀ e,
     fst (apply_operation (set_dry_run self true) host fs operation) = inl e
     ↔ fst (apply_operation (set_dry_run self false) host fs operation)
       = inl e)
  ∧ (∀ r,
       fst (apply_operation (set_dry_run self false) host fs operation)
       = inr r →
       OpResult.success r = true →
       ∃ r',
         fst (apply_operation (set_dry_run self true) host fs operation)
         = inr r'
         ∧ without_type_check r' = without_type_check r)
  ∧ (∀ r',
       fst (apply_operation (set_dry_run self true) host fs operation)
       = inr r' →
       OpResult.success r' = false →
       fst (apply_operation (set_dry_run self false) host fs operation)
       = inr r').
Proof.
  unfold apply_operation, set_dry_run, _get_content. simpl.
  destruct (negb _); [by repeat split |].
  destruct (if truthy_opt (block operation) then _ else _);
    [by repeat split |].
  destruct (dispatch _ _ _ _) as [e | [m d]]; simpl.
  - split; [done |]. split.
    + by intros r [= <-].
    + by intros r' [= <-].
  - split; [done |]. split.
    + intros r [= <-] _. eauto.
    + by intros r' [= <-].
Qed.

End Independence.

(** ** More on validation *)

Section MoreValidation.

Variable self : PatchManager.
Variable host : Host.

Lemma validate_operation_returns_acceptable tasks i operation u :
  validate_operation tasks i operation = inr u →
  acceptable tasks operation.
Proof.
  unfold validate_operation, acceptable. intros H.
  destruct (truthy_opt (taskId operation)); [| by left].
  right. destruct (find_task_def tasks _) as [task_def |] eqn:Hfind;
    [| by left].
  right. exists task_def. split; [done |].
  destruct (bool_decide (TaskDef.files task_def ≠ [])
            && negb (bool_decide (file operation ∈ TaskDef.files task_def)))
    eqn:Hfiles; [discriminate |].
  destruct (bool_decide (TaskDef.allowedOperations task_def ≠ [])
            && negb (bool_decide
                       (op operation ∈ TaskDef.allowedOperations task_def)))
    eqn:Hops; [discriminate |].
  split.
  - destruct (TaskDef.files task_def) as [| f fl]; [by left |]. right.
    rewrite bool_decide_eq_true_2 in Hfiles by done. simpl in Hfiles.
    apply negb_false_iff in Hfiles. by apply bool_decide_eq_true_1 in Hfiles.
  - destruct (TaskDef.allowedOperations task_def) as [| f fl]; [by left |].
    right. rewrite bool_decide_eq_true_2 in Hops by done. simpl in Hops.
    apply negb_false_iff in Hops. by apply bool_decide_eq_true_1 in Hops.
Qed.

Lemma validate_operations_returns_acceptable tasks operations :
  ∀ i u, validate_operations tasks i operations = inr u →
         Forall (acceptable tasks) operations.
Proof.
  induction operations as [| operation rest IH]; intros i u H; [done |].
  simpl in H.
  destruct (validate_operation tasks i operation) as [e | u'] eqn:Hop;
    [discriminate |].
  constructor; [by eapply validate_operation_returns_acceptable |].
  by eapply IH.
Qed.

(** With a schema present, validation passes exactly when every operation
    is acceptable: it has no task id, or names a task the schema does not
    list, or is allowed, by file and by kind, by the first task with its
    id. *)
Theorem validation_passes_iff_acceptable fs batch text tasks :
  fs !! schema_path self = Some text →
  json_load host (read_text text) = Some tasks →
  _validate_against_task_schema self host fs batch = inr tt
  ↔ Forall (acceptable tasks) (patches batch).
Proof.
  intros Hschema Hload. unfold _validate_against_task_schema.
  rewrite Hschema, Hload. split.
  - destruct (validate_operations tasks 0 (patches batch)) as [e | u] eqn:Hv;
      [discriminate |].
    intros _. by eapply validate_operations_returns_acceptable.
  - intros Hall. by rewrite (validate_operations_acceptable _ _ _ Hall).
Qed.

Lemma validate_operation_kind_mismatch tasks i operation task_id task_def :
  taskId operation = Some task_id →
  task_id ≠ EmptyString →
  find_task_def tasks task_id = Some task_def →
  TaskDef.allowedOperations task_def ≠ [] →
  op operation ∉ TaskDef.allowedOperations task_def →
  ∃ msg, validate_operation tasks i operation = inl (ValueError msg).
Proof.
  intros Hid Hne Hfind Hops Hnotin.
  destruct (validate_operation tasks i operation) as [e | u] eqn:Hv.
  - apply validate_operation_raises_ValueError in Hv as [msg ->]. eauto.
  - apply validate_operation_returns_acceptable in Hv.
    destruct Hv as [Hno | [Hnone | (t & Ht & _ & Hallowed)]].
    + rewrite Hid in Hno. by destruct task_id.
    + rewrite Hid in Hnone. simpl in Hnone. congruence.
    + rewrite Hid in Ht. simpl in Ht.
      assert (t = task_def) as -> by congruence.
      by destruct Hallowed.
Qed.

(** With a schema whose task [task_id] has a non-empty list of allowed
    operation kinds, a batch containing an operation for that task of a
    kind outside the list is rejected: [apply_batch] raises a [ValueError]
    and leaves the world as it was. *)
Theorem disallowed_kind_aborts_batch
    w batch text tasks operation task_id task_def :
  fs w !! schema_path self = Some text →
  json_load host (read_text text) = Some tasks →
  operation ∈ patches batch →
  taskId operation = Some task_id →
  task_id ≠ EmptyString →
  find_task_def tasks task_id = Some task_def →
  TaskDef.allowedOperations task_def ≠ [] →
  op operation ∉ TaskDef.allowedOperations task_def →
  ∃ msg, apply_batch self host w batch = (inl (ValueError msg), w).
Proof.
  intros Hschema Hload Hin Hid Hne Hfind Hops Hnotin.
  destruct (validate_operations_rejects tasks (patches batch) 0 operation Hin)
    as [msg Hmsg].
  { intros j. by eapply validate_operation_kind_mismatch. }
  exists ("Task schema validation failed: " +:+ msg).
  unfold apply_batch, _validate_against_task_schema.
  by rewrite Hschema, Hload, Hmsg.
Qed.

Lemma validate_operations_first_offender tasks before offender after e :
  Forall (acceptable tasks) before →
  ∀ i,
    validate_operation tasks (i + length before) offender = inl e →
    validate_operations tasks i (before ++ offender :: after) = inl e.
Proof.
  induction 1 as [| o before Ho _ IH]; intros i He.
  - simpl in *. rewrite Nat.add_0_r in He. by rewrite He.
  - simpl. rewrite (validate_operation_acceptable _ _ _ Ho). simpl.
    apply IH. by replace (S i + length before)%nat
                with (i + length (o :: before))%nat by (simpl; lia).
Qed.

(** The validation error names the first offending operation by its
    position, counted from 1, with the file, the task and the allowed
    files. *)
Theorem validation_error_names_first_offender
    fs batch text tasks before offender after task_id task_def :
  fs !! schema_path self = Some text →
  json_load host (read_text text) = Some tasks →
  patches batch = before ++ offender :: after →
  Forall (acceptable tasks) before →
  taskId offender = Some task_id →
  task_id ≠ EmptyString →
  find_task_def tasks task_id = Some task_def →
  TaskDef.files task_def ≠ [] →
  file offender ∉ TaskDef.files task_def →
  _validate_against_task_schema self host fs batch
  = inl (ValueError
           ("Task schema validation failed: Operation "
            +:+ difflib.str_nat (length before + 1) +:+ ": File '"
            +:+ file offender +:+ "' not in allowed files for task "
            +:+ task_id +:+ ": " +:+ repr_list (TaskDef.files task_def))).
Proof.
  intros Hschema Hload Hpatches Hbefore Hid Hne Hfind Hfiles Hnotin.
  unfold _validate_against_task_schema.
  rewrite Hschema, Hload, Hpatches.
  rewrite (validate_operations_first_offender tasks before offender after
             (ValueError
                ("Operation " +:+ difflib.str_nat (length before + 1)
                 +:+ ": File '" +:+ file offender
                 +:+ "' not in allowed files for task " +:+ task_id
                 +:+ ": " +:+ repr_list (TaskDef.files task_def)))
             Hbefore 0%nat).
  - reflexivity.
  - unfold validate_operation. rewrite Hid.
    destruct task_id as [| c r]; [done |].
    change (truthy_opt (Some (String c r))) with true.
    change (default EmptyString (Some (String c r))) with (String c r).
    cbv iota zeta.
    rewrite Hfind, (bool_decide_eq_true_2 _ Hfiles),
      (bool_decide_eq_false_2 _ Hnotin).
    reflexivity.
Qed.

End MoreValidation.

(** ** The diff of a successful operation *)

Section DiffHeaders.

Variable self : PatchManager.
Variable host : Host.

Lemma join_two_headers h1 h2 rest :
  ∃ body, join nl (h1 :: h2 :: rest) = h1 +:+ nl +:+ h2 +:+ body.
Proof.
  destruct rest as [| x rest].
  - exists EmptyString. cbn [join]. by rewrite string_app_nil_r.
  - exists (nl +:+ join nl (x :: rest)). reflexivity.
Qed.

(** A successful operation always carries a diff, and the diff is either
    empty or starts with the two header lines, both naming the target
    path: the edit is in place. *)
Theorem successful_diff_names_target fs operation r fs' :
  apply_operation self host fs operation = (inr r, fs') →
  OpResult.success r = true →
  ∃ d,
    OpResult.diff r = Some d
    ∧ (d = EmptyString
       ∨ ∃ body,
           d = "--- " +:+ path_join (project_root self) (file operation)
               +:+ nl
               +:+ "+++ " +:+ path_join (project_root self) (file operation)
               +:+ body).
Proof.
  intros H Hok.
  destruct (apply_operation_success_diff _ _ _ _ _ _ H Hok)
    as (d & Hd & content & lines & m & _ & _ & _ & ->).
  exists (_generate_unified_diff
            (path_join (project_root self) (file operation)) lines m).
  split; [done |].
  unfold _generate_unified_diff, difflib.unified_diff.
  destruct (difflib.get_grouped_opcodes lines m 3) as [| g gs]; [by left |].
  right. rewrite !string_app_nil_r.
  destruct (join_two_headers
              ("--- " +:+ path_join (project_root self) (file operation))
              ("+++ " +:+ path_join (project_root self) (file operation))
              (concat (map (difflib.hunk_lines lines m EmptyString)
                         (g :: gs)))) as [body ->].
  by exists body.
Qed.

End DiffHeaders.

(** ** The range check of [replace_block] *)

(** [replace_block] fails exactly when [start] is below 1 or [end] is above
    the number of lines, and then with a [ValueError] that names the
    requested range and the number of lines; nothing else about the range
    is checked. *)
Theorem replace_block_fails_exactly_out_of_range
    fs file_path text start_line end_line new_content preserve :
  fs !! file_path = Some text →
  ((∃ e, replace_block fs file_path start_line end_line new_content preserve
         = inl e)
   ↔ start_line < 1 ∨ len (readlines text) < end_line)
  ∧ (start_line < 1 ∨ len (readlines text) < end_line →
     replace_block fs file_path start_line end_line new_content preserve
     = inl (ValueError
              ("Line numbers out of range: " +:+ str_Z start_line +:+ "-"
               +:+ str_Z end_line +:+ " (file has "
               +:+ str_Z (len (readlines text)) +:+ " lines)"))).
Proof.
  intros Hfile. split.
  - by apply replace_block_raises_iff.
  - by apply replace_block_range_error.
Qed.

(** ** The properties at sample inputs *)

Lemma greet_present : tree !! "/proj/greet.py" = Some greet_text.
Proof. vm_refl. Qed.

Lemma greet_lines : len (readlines greet_text) = 2.
Proof. vm_refl. Qed.

Lemma a_txt_present : tree !! path_join "/proj" "a.txt" = Some ("a" +:+ nl).
Proof. vm_refl. Qed.



Lemma missing_plain : no_parent_reference (path_join "/proj" "missing.py").
Proof. unfold no_parent_reference. by_evaluation. Qed.

Lemma partial_batch_raises :
  apply_batch manager plain_host (world_of tree) partial_batch
  = (inl (FileNotFoundError "File not found: /proj/missing.py"),
     snd (apply_batch manager plain_host (world_of tree) partial_batch)).
Proof. vm_refl. Qed.

Lemma replace_block_fails_exactly_out_of_range_witness :
  replace_block tree "/proj/greet.py" 5 5 "x" true
  = inl (ValueError
           ("Line numbers out of range: " +:+ str_Z 5 +:+ "-" +:+ str_Z 5
            +:+ " (file has " +:+ str_Z (len (readlines greet_text))
            +:+ " lines)")).
Proof.
  apply (proj2 (replace_block_fails_exactly_out_of_range tree
                  "/proj/greet.py" greet_text 5 5 "x" true greet_present)).
  right. rewrite greet_lines. lia.
Defined.

Lemma replace_block_length_witness :
  ∃ modified_lines d,
    replace_block tree "/proj/greet.py" 2 2 ("x" +:+ nl) true
      = inr (modified_lines, d)
    ∧ len modified_lines
      = len (readlines greet_text) - (2 - 2 + 1)
        + (Z.of_nat (count_char LF ("x" +:+ nl)) + 1).
Proof.
  apply (replace_block_length tree "/proj/greet.py" greet_text greet_present);
    [lia | lia | rewrite greet_lines; lia].
Defined.

Lemma replace_block_written_text_witness :
  ∃ modified_lines d,
    replace_block tree "/proj/greet.py" 2 2 ("    return 'hello'" +:+ nl) true
      = inr (modified_lines, d)
    ∧ writelines modified_lines
      = writelines (slice_to (readlines greet_text) (2 - 1))
        +:+ replacement_text
              (indented (readlines greet_text) (2 - 1) true
                 ("    return 'hello'" +:+ nl))
        +:+ writelines (slice_from (readlines greet_text) 2).
Proof.
  apply (replace_block_written_text tree "/proj/greet.py" greet_text
           greet_present); [lia | rewrite greet_lines; lia].
Defined.

Lemma insert_before_inserts_witness :
  insert_before tree "/proj/greet.py" 2 ("x = 1" +:+ nl +:+ "y = 2") true
  = inr (inserted_at (readlines greet_text) (Z.to_nat (2 - 1))
           (terminated_pieces
              (indented (readlines greet_text) (2 - 1) true
                 ("x = 1" +:+ nl +:+ "y = 2"))),
         _generate_unified_diff "/proj/greet.py" (readlines greet_text)
           (inserted_at (readlines greet_text) (Z.to_nat (2 - 1))
              (terminated_pieces
                 (indented (readlines greet_text) (2 - 1) true
                    ("x = 1" +:+ nl +:+ "y = 2"))))).
Proof.
  apply (proj2 (proj2 (insert_before_inserts tree "/proj/greet.py"
                         greet_text greet_present 2
                         ("x = 1" +:+ nl +:+ "y = 2") true)));
    [lia | rewrite greet_lines; lia].
Defined.

Lemma insert_after_inserts_witness :
  insert_after tree "/proj/greet.py" 2 ("x = 1" +:+ nl +:+ "y = 2") true
  = inr (inserted_at (readlines greet_text) (Z.to_nat 2)
           (terminated_pieces
              (indented_from_previous (readlines greet_text) 2 true
                 ("x = 1" +:+ nl +:+ "y = 2"))),
         _generate_unified_diff "/proj/greet.py" (readlines greet_text)
           (inserted_at (readlines greet_text) (Z.to_nat 2)
              (terminated_pieces
                 (indented_from_previous (readlines greet_text) 2 true
                    ("x = 1" +:+ nl +:+ "y = 2"))))).
Proof.
  apply (proj2 (proj2 (insert_after_inserts tree "/proj/greet.py"
                         greet_text greet_present 2
                         ("x = 1" +:+ nl +:+ "y = 2") true)));
    [lia | rewrite greet_lines; lia].
Defined.

Lemma insert_before_is_insert_after_witness :
  insert_before tree "/proj/greet.py" 2 "x" false
  = insert_after tree "/proj/greet.py" (2 - 1) "x" false.
Proof.
  apply (insert_before_is_insert_after tree "/proj/greet.py" greet_text
           greet_present); [lia | rewrite greet_lines; lia].
Defined.

Lemma append_written_text_witness :
  ∃ modified_lines d,
    append tree "/proj/greet.py" ("greet()" +:+ nl +:+ nl +:+ "greet()")
    = inr (modified_lines, d)
    ∧ writelines modified_lines
      = universal_newlines greet_text
        +:+ writelines
              (nonblank_lines ("greet()" +:+ nl +:+ nl +:+ "greet()")).
Proof.
  exact (append_written_text tree "/proj/greet.py" greet_text greet_present
           ("greet()" +:+ nl +:+ nl +:+ "greet()")).
Defined.

Lemma prepend_written_text_witness :
  ∃ modified_lines d,
    prepend tree "/proj/greet.py" "import os"
    = inr (modified_lines, d)
    ∧ writelines modified_lines
      = writelines (nonblank_lines "import os")
        +:+ universal_newlines greet_text.
Proof.
  exact (prepend_written_text tree "/proj/greet.py" greet_text greet_present
           "import os").
Defined.

Lemma preserve_indentation_first_line_only_witness :
  ∃ first rest,
    split_nl ("  x = 1" +:+ nl +:+ "  y = 2") = first :: rest
    ∧ split_nl (_preserve_indentation ("    return 'hi'" +:+ nl)
                  ("  x = 1" +:+ nl +:+ "  y = 2"))
      = (indent_of ("    return 'hi'" +:+ nl) +:+ lstrip first) :: rest.
Proof.
  apply (preserve_indentation_first_line_only ("    return 'hi'" +:+ nl)
           ("  x = 1" +:+ nl +:+ "  y = 2")); by_evaluation.
Defined.

Lemma preserve_indentation_idempotent_witness :
  _preserve_indentation ("    return 'hi'" +:+ nl)
    (_preserve_indentation ("    return 'hi'" +:+ nl)
       ("  x = 1" +:+ nl +:+ "  y = 2"))
  = _preserve_indentation ("    return 'hi'" +:+ nl)
      ("  x = 1" +:+ nl +:+ "  y = 2").
Proof.
  apply (preserve_indentation_idempotent ("    return 'hi'" +:+ nl)
           ("  x = 1" +:+ nl +:+ "  y = 2")); by_evaluation.
Defined.

Lemma append_twice_keeps_both_copies_witness :
  snd (apply_operation manager plain_host
         (snd (apply_operation manager plain_host tree
                 (append_to "a.txt" "zz" None)))
         (append_to "a.txt" "zz" None))
    !! path_join "/proj" "a.txt"
  = Some (universal_newlines ("a" +:+ nl)
          +:+ writelines (nonblank_lines "zz")
          +:+ writelines (nonblank_lines "zz")).
Proof.
  apply (append_twice_keeps_both_copies manager plain_host tree
           (append_to "a.txt" "zz" None) ("a" +:+ nl) "zz");
    [reflexivity | reflexivity | reflexivity | discriminate | reflexivity
    | exact a_txt_present].
Defined.


Lemma rejected_operation_writes_nothing_witness :
  apply_operation manager plain_host tree (replace_in "greet.py" 5 5 "x")
  = (inr (failed_result (replace_in "greet.py" 5 5 "x")
            "Line numbers out of range: 5-5 (file has 2 lines)"),
     tree).
Proof.
  exact (rejected_operation_writes_nothing manager plain_host tree
           (replace_in "greet.py" 5 5 "x") greet_text "x" greet_present
           eq_refl).
Defined.

Lemma checker_ignored_for_other_files_witness :
  apply_operation manager slow_checker_host tree (append_to "a.txt" "zz" None)
  = apply_operation manager plain_host tree (append_to "a.txt" "zz" None).
Proof.
  apply (checker_ignored_for_other_files manager plain_host
           slow_checker_host tree (append_to "a.txt" "zz" None)).
  by_evaluation.
Defined.

Lemma apply_batch_applies_in_order_witness :
  (_validate_against_task_schema manager plain_host tree partial_batch
   = inl (FileNotFoundError "File not found: /proj/missing.py")
   ∧ snd (apply_batch manager plain_host (world_of tree) partial_batch)
     = world_of tree)
  ∨ (_validate_against_task_schema manager plain_host tree partial_batch
     = inr tt
     ∧ ∃ before raising after,
         patches partial_batch = before ++ raising :: after
         ∧ fs (snd (apply_batch manager plain_host (world_of tree)
                      partial_batch))
           = apply_all manager plain_host tree before
         ∧ fst (apply_operation manager plain_host
                  (fs (snd (apply_batch manager plain_host (world_of tree)
                              partial_batch)))
                  raising)
           = inl (FileNotFoundError "File not found: /proj/missing.py")).
Proof.
  exact (apply_batch_applies_in_order manager plain_host (world_of tree)
           partial_batch
           (inl (FileNotFoundError "File not found: /proj/missing.py")) _
           partial_batch_raises).
Defined.


Lemma batch_result_counts_witness :
  BatchResult.total mixed_batch_result = length (patches mixed_batch)
  ∧ length (BatchResult.operations mixed_batch_result)
    = BatchResult.total mixed_batch_result
  ∧ (BatchResult.succeeded mixed_batch_result
     + BatchResult.failed mixed_batch_result)%nat
    = BatchResult.total mixed_batch_result
  ∧ (BatchResult.success mixed_batch_result = true
     ↔ BatchResult.failed mixed_batch_result = 0%nat).
Proof.
  exact (batch_result_counts manager plain_host (world_of tree) mixed_batch
           mixed_batch_result _ mixed_batch_returns).
Defined.

Lemma batch_results_follow_operations_witness :
  Forall2 (λ operation r,
             OpResult.file r = file operation
             ∧ OpResult.op r = op operation)
          (patches mixed_batch) (BatchResult.operations mixed_batch_result).
Proof.
  exact (batch_results_follow_operations manager plain_host (world_of tree)
           mixed_batch mixed_batch_result _ mixed_batch_returns).
Defined.

Lemma apply_batch_returns_when_runnable_witness :
  ∃ res w',
    apply_batch manager plain_host (world_of tree) mixed_batch
    = (inr res, w')
    ∧ length (BatchResult.operations res) = length (patches mixed_batch).
Proof.
  apply (apply_batch_returns_when_runnable manager plain_host (world_of tree)
           mixed_batch).
  - by_evaluation.
  - apply Forall_cons_2; [| apply Forall_cons_2; [| apply Forall_nil_2]].
    + split; [by_evaluation | left; reflexivity].
    + split; [by_evaluation | left; reflexivity].
Defined.

Lemma notification_never_changes_outcome_witness :
  fst (apply_batch manager offline_host (world_of tree) mixed_batch)
  = fst (apply_batch manager plain_host (world_of tree) mixed_batch)
  ∧ fs (snd (apply_batch manager offline_host (world_of tree) mixed_batch))
    = fs (snd (apply_batch manager plain_host (world_of tree) mixed_batch)).
Proof.
  apply (notification_never_changes_outcome manager offline_host plain_host
           (world_of tree) mixed_batch).
  split; [intros path fs; reflexivity |].
  split; [intros text; reflexivity | reflexivity].
Defined.

Lemma dry_run_previews_operation_witness :
  ∃ r r',
    fst (apply_operation (set_dry_run manager false) plain_host tree
           (append_to "a.txt" "zz" None)) = inr r
    ∧ fst (apply_operation (set_dry_run manager true) plain_host tree
             (append_to "a.txt" "zz" None)) = inr r'
    ∧ without_type_check r' = without_type_check r.
Proof.
  destruct (apply_operation_append (set_dry_run manager false) plain_host
              tree (append_to "a.txt" "zz" None) ("a" +:+ nl) "zz"
              eq_refl eq_refl eq_refl ltac:(discriminate) a_txt_present)
    as (r & Hreturns & Hok).
  assert (fst (apply_operation (set_dry_run manager false) plain_host tree
                 (append_to "a.txt" "zz" None)) = inr r) as Hr
    by (by rewrite Hreturns).
  destruct (proj1 (proj2 (dry_run_previews_operation manager plain_host tree
                            (append_to "a.txt" "zz" None))) r Hr Hok)
    as (r' & Hdry & Hsame).
  by exists r, r'.
Defined.

Lemma validation_passes_iff_acceptable_witness :
  _validate_against_task_schema manager schema_host tree_with_schema
    (batch_of [append_to "a.py" ("x = 2" +:+ nl) (Some "1");
               append_to "b.py" ("y = 2" +:+ nl) (Some "77")])
  = inr tt
  ↔ Forall (acceptable schema_tasks)
      (patches (batch_of [append_to "a.py" ("x = 2" +:+ nl) (Some "1");
                          append_to "b.py" ("y = 2" +:+ nl) (Some "77")])).
Proof.
  apply (validation_passes_iff_acceptable manager schema_host
           tree_with_schema _ schema_text schema_tasks); by_evaluation.
Defined.

Lemma disallowed_kind_aborts_batch_witness :
  ∃ msg,
    apply_batch manager strict_schema_host
      (world_of tree_with_strict_schema)
      (batch_of [prepend_to "a.py" ("x = 0" +:+ nl) (Some "1")])
    = (inl (ValueError msg), world_of tree_with_strict_schema).
Proof.
  apply (disallowed_kind_aborts_batch manager strict_schema_host
           (world_of tree_with_strict_schema)
           (batch_of [prepend_to "a.py" ("x = 0" +:+ nl) (Some "1")])
           strict_schema_text strict_schema_tasks
           (prepend_to "a.py" ("x = 0" +:+ nl) (Some "1")) "1"
           {| TaskDef.id := "1"; TaskDef.files := ["a.py"];
              TaskDef.allowedOperations := ["append"] |});
    by_evaluation.
Defined.

Lemma validation_error_names_first_offender_witness :
  _validate_against_task_schema manager schema_host tree_with_schema
    (batch_of [append_to "a.py" ("x = 2" +:+ nl) (Some "1");
               append_to "b.py" ("y = 2" +:+ nl) (Some "1")])
  = inl (ValueError
           ("Task schema validation failed: Operation "
            +:+ difflib.str_nat
                  (length [append_to "a.py" ("x = 2" +:+ nl) (Some "1")] + 1)
            +:+ ": File '" +:+ "b.py" +:+ "' not in allowed files for task "
            +:+ "1" +:+ ": " +:+ repr_list ["a.py"])).
Proof.
  apply (validation_error_names_first_offender manager schema_host
           tree_with_schema
           (batch_of [append_to "a.py" ("x = 2" +:+ nl) (Some "1");
                      append_to "b.py" ("y = 2" +:+ nl) (Some "1")])
           schema_text schema_tasks
           [append_to "a.py" ("x = 2" +:+ nl) (Some "1")]
           (append_to "b.py" ("y = 2" +:+ nl) (Some "1")) [] "1"
           {| TaskDef.id := "1"; TaskDef.files := ["a.py"];
              TaskDef.allowedOperations := [] |}); try by_evaluation.
  apply Forall_cons_2; [| apply Forall_nil_2].
  right; right. eexists. split; [by_evaluation |]. split.
  - right. by_evaluation.
  - left. reflexivity.
Defined.

Lemma successful_diff_names_target_witness :
  ∃ r d,
    fst (apply_operation manager plain_host tree
           (append_to "a.txt" "zz" None)) = inr r
    ∧ OpResult.diff r = Some d
    ∧ (d = EmptyString
       ∨ ∃ body,
           d = "--- " +:+ path_join "/proj" "a.txt" +:+ nl
               +:+ "+++ " +:+ path_join "/proj" "a.txt" +:+ body).
Proof.
  destruct (apply_operation_append manager plain_host tree
              (append_to "a.txt" "zz" None) ("a" +:+ nl) "zz"
              eq_refl eq_refl eq_refl ltac:(discriminate) a_txt_present)
    as (r & Hreturns & Hok).
  destruct (successful_diff_names_target manager plain_host tree
              (append_to "a.txt" "zz" None) r _ Hreturns Hok)
    as (d & Hdiff & Hshape).
  exists r, d. split; [by rewrite Hreturns |]. by split.
Defined.
